(** * goiler: the websocket Hub and the in-process PubSub bus

    A shallow embedding of [internal/websocket] (Hub, Client, Message) and
    [internal/channel/pubsub.go] (PubSub, Fanout, Pipeline).

    Conventions of the model:
    - a Go pointer ([*Client], [*Subscriber], [*Message]) is a [nat]
      address; the objects behind the addresses live in a heap (a total
      function for clients, a [gmap] for subscribers and messages);
    - a Go map [map[K]bool] is a [gset K], a [map[K]V] a [gmap K V];
    - a buffered Go channel is a [Chan]: its buffer, its capacity and
      whether it has been closed;
    - a Go panic (closing a closed channel, sending on a closed channel)
      is [None] in an [option] result;
    - a [select] with several ready cases is a relation: Go picks any one
      of them. *)

From stdpp Require Import base gmap sets list strings.

(** ** Go channels *)

Record Chan (A : Type) := mkChan {
  buf : list A;
  cap : nat;
  closed : bool
}.
Arguments mkChan {A} _ _ _.
Arguments buf {A} _.
Arguments cap {A} _.
Arguments closed {A} _.

(** [close(ch)]: panics when [ch] is already closed. *)
Definition close {A} (ch : Chan A) : option (Chan A) :=
  if closed ch then None else Some (mkChan (buf ch) (cap ch) true).

(** A buffered channel with room for one more element. *)
Definition has_room {A} (ch : Chan A) : bool := length (buf ch) <? cap ch.

(** Enqueue on an open channel known to have room. *)
Definition enqueue {A} (ch : Chan A) (x : A) : Chan A :=
  mkChan (buf ch ++ [x]) (cap ch) (closed ch).

(** [select { case ch <- x: ... ; default: ... }] on an open channel:
    the element is enqueued when there is room, otherwise the default
    branch runs and the channel is untouched. *)
Definition offer {A} (ch : Chan A) (x : A) : Chan A :=
  if has_room ch then enqueue ch x else ch.

(** The same [select] in Go: a send on a closed channel panics. *)
Definition try_send {A} (ch : Chan A) (x : A) : option (Chan A) :=
  if closed ch then None else Some (offer ch x).

(** Pointwise update of a heap indexed by addresses. *)
Definition upd {A} (f : nat -> A) (k : nat) (v : A) : nat -> A :=
  fun k' => if Nat.eqb k' k then v else f k'.

(** ** internal/websocket: Message, Client, Hub *)

Module Websocket.

Definition Bytes := list Byte.byte.

(** [type Message struct { Type; Room; Payload }] ([Type] is a keyword of
    Rocq, hence [Type_]). *)
Record Message := mkMessage {
  Type_ : string;
  Room : string;
  Payload : Bytes
}.

(** [NewClient]: [send: make(chan []byte, 256)]. *)
Definition sendBufferSize : nat := 256.

(** The Hub's registries, together with the two fields of each [*Client]
    object that the Hub touches: [client.rooms] ([crooms]) and
    [client.send] ([send]). *)
Record Hub := mkHub {
  clients : gset nat;
  rooms : gmap string (gset nat);
  crooms : nat -> gset string;
  send : nat -> Chan Bytes
}.

Section HubOps.

(** [message.Encode()] ([json.Marshal]); it may fail. *)
Variable encode : Message -> option Bytes.

(** [registerClient]: [h.clients[client] = true]. *)
Definition registerClient (h : Hub) (c : nat) : Hub :=
  mkHub ({[c]} ∪ clients h) (rooms h) (crooms h) (send h).

(** One iteration of the room loop of [unregisterClient]: the client is
    deleted from the room, and the room is deleted when that left it
    empty. A room not containing the client is left as it is. *)
Definition prune (c : nat) (cs : gset nat) : option (gset nat) :=
  if bool_decide (c ∈ cs) then
    (let cs' := cs ∖ {[c]} in if bool_decide (cs' = ∅) then None else Some cs')
  else Some cs.

(** [unregisterClient]: nothing happens when the client is not
    registered; otherwise it is deleted from [h.clients], its [send]
    channel is closed and it is pruned from every room. *)
Definition unregisterClient (h : Hub) (c : nat) : option Hub :=
  if bool_decide (c ∈ clients h) then
    match close (send h c) with
    | None => None
    | Some ch =>
        Some (mkHub (clients h ∖ {[c]}) (omap (prune c) (rooms h))
                    (crooms h) (upd (send h) c ch))
    end
  else Some h.

(** [addClientToRoom]: creates the room when absent, then sets both
    [h.rooms[room][client]] and [client.rooms[room]]. *)
Definition addClientToRoom (h : Hub) (c : nat) (room : string) : Hub :=
  let cs := default ∅ (rooms h !! room) in
  mkHub (clients h) (<[room := {[c]} ∪ cs]> (rooms h))
        (upd (crooms h) c ({[room]} ∪ crooms h c)) (send h).

(** [removeClientFromRoom]: only when the room exists; the room is
    deleted when it becomes empty. *)
Definition removeClientFromRoom (h : Hub) (c : nat) (room : string) : Hub :=
  match rooms h !! room with
  | Some cs =>
      let cs' := cs ∖ {[c]} in
      mkHub (clients h)
            (if bool_decide (cs' = ∅) then delete room (rooms h)
             else <[room := cs']> (rooms h))
            (upd (crooms h) c (crooms h c ∖ {[room]})) (send h)
  | None => h
  end.

(** The [for client := range clients { select { case client.send <- data:
    default: } }] loops of [broadcastMessage]. *)
Fixpoint deliver_all (cs : list nat) (data : Bytes) (h : Hub) : option Hub :=
  match cs with
  | [] => Some h
  | c :: cs' =>
      match try_send (send h c) data with
      | None => None
      | Some ch => deliver_all cs' data (mkHub (clients h) (rooms h) (crooms h) (upd (send h) c ch))
      end
  end.

(** [broadcastMessage]: an encoding failure is logged and nothing is sent;
    a non-empty [Room] restricts the delivery to that room (nothing when
    the room does not exist); the empty [Room] sends to every client. *)
Definition broadcastMessage (h : Hub) (m : Message) : option Hub :=
  match encode m with
  | None => Some h
  | Some data =>
      if bool_decide (Room m <> "") then
        match rooms h !! Room m with
        | Some cs => deliver_all (elements cs) data h
        | None => Some h
        end
      else deliver_all (elements (clients h)) data h
  end.

(** [BroadcastToRoom]: [message.Room = room] writes through the caller's
    pointer; the same object is then queued on [h.broadcast]. The result
    is the message object after the call. *)
Definition BroadcastToRoom (room : string) (m : Message) : Message :=
  mkMessage (Type_ m) room (Payload m).

(** [BroadcastToRoom] followed by the control loop's
    [broadcastMessage] of the queued message: the caller's message object
    afterwards, and the Hub afterwards. *)
Definition BroadcastToRoom_run (h : Hub) (room : string) (m : Message)
  : Message * option Hub :=
  let m' := BroadcastToRoom room m in (m', broadcastMessage h m').

(** [GetRoomClients]. *)
Definition GetRoomClients (h : Hub) (room : string) : nat :=
  match rooms h !! room with
  | Some cs => size cs
  | None => 0
  end.

End HubOps.

(** Membership of a client in a room, as the Hub's registry records it. *)
Definition in_room (h : Hub) (room : string) (c : nat) : Prop :=
  match rooms h !! room with
  | Some cs => c ∈ cs
  | None => False
  end.

(** Bidirectional consistency of the two membership records, for the
    clients registered with the Hub. *)
Definition consistent (h : Hub) : Prop :=
  forall c room, c ∈ clients h -> (in_room h room c <-> room ∈ crooms h c).

End Websocket.

(** ** internal/channel: PubSub, Fanout, Pipeline *)

Module Channel.

(** [type Event struct { Topic; Payload interface{}; Timestamp }]; the
    payload type is left abstract, the timestamp is a number. *)
Record Event (P : Type) := mkEvent {
  Topic : string;
  Payload : P;
  Timestamp : Z
}.
Arguments mkEvent {P} _ _ _.
Arguments Topic {P} _.
Arguments Payload {P} _.
Arguments Timestamp {P} _.

(** [type Subscriber struct { ID; Topics; Channel; ctx; cancel }]: the
    context is represented by whether it is done ([ctx.Done()] ready). *)
Record Subscriber (P : Type) := mkSubscriber {
  ID : string;
  Topics : list string;
  Channel : Chan (Event P);
  cancelled : bool
}.
Arguments mkSubscriber {P} _ _ _ _.
Arguments ID {P} _.
Arguments Topics {P} _.
Arguments Channel {P} _.
Arguments cancelled {P} _.

(** [type PubSub struct { subscribers; bufferSize }], together with the
    heap of [*Subscriber] objects and the next free address. *)
Record PubSub (P : Type) := mkPubSub {
  subscribers : gmap string (gmap string nat);
  heap : gmap nat (Subscriber P);
  next : nat;
  bufferSize : nat
}.
Arguments mkPubSub {P} _ _ _ _.
Arguments subscribers {P} _.
Arguments heap {P} _.
Arguments next {P} _.
Arguments bufferSize {P} _.

Section PubSubOps.

Context {P : Type}.

(** [NewPubSub]: a non-positive buffer size becomes 100. *)
Definition NewPubSub (bs : Z) : PubSub P :=
  mkPubSub ∅ ∅ 0 (if (bs <=? 0)%Z then 100 else Z.to_nat bs).

(** The loop of [Subscribe]: [ps.subscribers[topic][id] = sub], creating
    the inner map when it is nil. *)
Definition register_topics (id : string) (p : nat) (topics : list string)
    (subs : gmap string (gmap string nat)) : gmap string (gmap string nat) :=
  fold_left (fun acc t => <[t := <[id := p]> (default ∅ (acc !! t))]> acc) topics subs.

(** [Subscribe(ctx, id, topics...)]: a fresh [*Subscriber] with a new
    channel of [ps.bufferSize]; [parent_done] tells whether the parent
    context is already done (then so is the derived one). Returns the
    new state and the address of the subscriber. *)
Definition Subscribe (ps : PubSub P) (parent_done : bool) (id : string)
    (topics : list string) : PubSub P * nat :=
  let p := next ps in
  let sub := mkSubscriber id topics (mkChan [] (bufferSize ps) false) parent_done in
  (mkPubSub (register_topics id p topics (subscribers ps)) (<[p := sub]> (heap ps))
            (S p) (bufferSize ps), p).

(** The loop of [Unsubscribe]: [delete(subs, sub.ID)] under each of the
    subscriber's topics, deleting the topic when it becomes empty. *)
Definition unregister_topics (id : string) (topics : list string)
    (subs : gmap string (gmap string nat)) : gmap string (gmap string nat) :=
  fold_left (fun acc t =>
    match acc !! t with
    | Some m =>
        let m' := delete id m in
        if bool_decide (m' = ∅) then delete t acc else <[t := m']> acc
    | None => acc
    end) topics subs.

(** [Unsubscribe(sub)]: removes the subscriber's id from its topics, then
    [sub.cancel()] and [close(sub.Channel)], which panics when the channel
    is already closed. *)
Definition Unsubscribe (ps : PubSub P) (p : nat) : option (PubSub P) :=
  match heap ps !! p with
  | None => None
  | Some sub =>
      match close (Channel sub) with
      | None => None
      | Some ch =>
          Some (mkPubSub (unregister_topics (ID sub) (Topics sub) (subscribers ps))
                  (<[p := mkSubscriber (ID sub) (Topics sub) ch true]> (heap ps))
                  (next ps) (bufferSize ps))
      end
  end.

(** The members of a topic, [ps.subscribers[topic]] (nil reads as empty). *)
Definition topic_subs (ps : PubSub P) (topic : string) : gmap string nat :=
  default ∅ (subscribers ps !! topic).

(** [GetSubscriberCount]. *)
Definition GetSubscriberCount (ps : PubSub P) (topic : string) : nat :=
  size (topic_subs ps topic).

(** The [select] of [Publish] for one subscriber: any ready case may be
    chosen. [Some (sub', true)] is a delivery ([sent++]), [Some (sub',
    false)] a skip, [None] a panic (send on a closed channel). *)
Inductive publish_one (e : Event P) : Subscriber P -> option (Subscriber P * bool) -> Prop :=
  | sel_done : forall s,
      cancelled s = true -> publish_one e s (Some (s, false))
  | sel_send : forall s,
      closed (Channel s) = false -> has_room (Channel s) = true ->
      publish_one e s
        (Some (mkSubscriber (ID s) (Topics s) (enqueue (Channel s) e) (cancelled s), true))
  | sel_closed : forall s,
      closed (Channel s) = true -> publish_one e s None
  | sel_default : forall s,
      cancelled s = false -> closed (Channel s) = false -> has_room (Channel s) = false ->
      publish_one e s (Some (s, false)).

(** The [for _, sub := range subs] loop of [Publish]; a nil [*Subscriber]
    dereference panics. *)
Inductive publish_loop (e : Event P) :
    gmap nat (Subscriber P) -> list (string * nat) -> option (gmap nat (Subscriber P) * nat) -> Prop :=
  | pl_nil : forall h, publish_loop e h [] (Some (h, 0))
  | pl_step : forall h i p rest s s' b r,
      h !! p = Some s -> publish_one e s (Some (s', b)) ->
      publish_loop e (<[p := s']> h) rest r ->
      publish_loop e h ((i, p) :: rest)
        ((fun '(h', n) => (h', (if b then 1 else 0) + n)) <$> r)
  | pl_panic : forall h i p rest s,
      h !! p = Some s -> publish_one e s None ->
      publish_loop e h ((i, p) :: rest) None
  | pl_nil_ptr : forall h i p rest,
      h !! p = None -> publish_loop e h ((i, p) :: rest) None.

(** [Publish(topic, payload)] at time [now]: the outcome is the new state
    and the count it returns, or [None] for a panic. *)
Definition Publish (ps : PubSub P) (topic : string) (payload : P) (now : Z)
    (res : option (PubSub P * nat)) : Prop :=
  let e := mkEvent topic payload now in
  let subs := topic_subs ps topic in
  if bool_decide (size subs = 0) then res = Some (ps, 0)
  else exists r, publish_loop e (heap ps) (map_to_list subs) r /\
    res = (fun '(h, n) => (mkPubSub (subscribers ps) h (next ps) (bufferSize ps), n)) <$> r.

End PubSubOps.

(** *** Fanout *)

(** The state of a [Fanout] as its [run] goroutine sees it: the input
    channel, the output channels, whether [f.ctx] is done, and whether
    [run] has returned. *)
Record Fanout (P : Type) := mkFanout {
  finput : Chan (Event P);
  foutputs : list (Chan (Event P));
  fdone : bool;
  fexited : bool
}.
Arguments mkFanout {P} _ _ _ _.
Arguments finput {P} _.
Arguments foutputs {P} _.
Arguments fdone {P} _.
Arguments fexited {P} _.

(** Closing every output in turn ([for _, out := range f.outputs { close(out) }]). *)
Fixpoint close_all {A} (chs : list (Chan A)) : option (list (Chan A)) :=
  match chs with
  | [] => Some []
  | ch :: rest =>
      match close ch with
      | None => None
      | Some ch' => (fun rest' => ch' :: rest') <$> close_all rest
      end
  end.

(** Offering an event to every output with the drop-on-full [select]. *)
Fixpoint send_all {A} (chs : list (Chan A)) (x : A) : option (list (Chan A)) :=
  match chs with
  | [] => Some []
  | ch :: rest =>
      match try_send ch x with
      | None => None
      | Some ch' => (fun rest' => ch' :: rest') <$> send_all rest x
      end
  end.

Section FanoutOps.

Context {P : Type}.

(** [NewFanout(ctx, bufferSize)] with no outputs yet. *)
Definition NewFanout (parent_done : bool) (bs : nat) : Fanout P :=
  mkFanout (mkChan [] bs false) [] parent_done false.

(** [AddOutput(bufferSize)]: appends a fresh channel. *)
Definition AddOutput (f : Fanout P) (bs : nat) : Fanout P :=
  mkFanout (finput f) (foutputs f ++ [mkChan [] bs false]) (fdone f) (fexited f).

(** [Close()]: [f.cancel()] then [close(f.input)]. *)
Definition FanoutClose (f : Fanout P) : option (Fanout P) :=
  (fun inp => mkFanout inp (foutputs f) true (fexited f)) <$> close (finput f).

(** One iteration of the [for { select { ... } }] loop of [Fanout.run];
    [None] is a panic. *)
Inductive fanout_step : Fanout P -> option (Fanout P) -> Prop :=
  | fs_done : forall f,
      fexited f = false -> fdone f = true ->
      fanout_step f ((fun outs => mkFanout (finput f) outs (fdone f) true) <$> close_all (foutputs f))
  | fs_recv : forall f e rest,
      fexited f = false -> buf (finput f) = e :: rest ->
      fanout_step f
        ((fun outs => mkFanout (mkChan rest (cap (finput f)) (closed (finput f))) outs (fdone f) false)
           <$> send_all (foutputs f) e)
  | fs_input_closed : forall f,
      fexited f = false -> buf (finput f) = [] -> closed (finput f) = true ->
      fanout_step f (Some (mkFanout (finput f) (foutputs f) (fdone f) true)).

End FanoutOps.

(** *** Pipeline *)

(** The state of a [Pipeline] as its goroutine sees it. Errors are
    strings. [ppending] is the result of the stages for the event last
    received, while the goroutine is blocked in [p.output <- event]
    ([inl]) or [p.errors <- err] ([inr]). *)
Record Pipeline (P : Type) := mkPipeline {
  stages : list (Event P -> Event P + string);
  pinput : Chan (Event P);
  poutput : Chan (Event P);
  perrors : Chan string;
  ppending : option (Event P + string);
  pdone : bool;
  pexited : bool
}.
Arguments mkPipeline {P} _ _ _ _ _ _ _.
Arguments stages {P} _.
Arguments pinput {P} _.
Arguments poutput {P} _.
Arguments perrors {P} _.
Arguments ppending {P} _.
Arguments pdone {P} _.
Arguments pexited {P} _.

Section PipelineOps.

Context {P : Type}.

(** [NewPipeline(ctx, bufferSize)]. *)
Definition NewPipeline (parent_done : bool) (bs : nat) : Pipeline P :=
  mkPipeline [] (mkChan [] bs false) (mkChan [] bs false) (mkChan [] bs false) None parent_done false.

(** [AddStage]. *)
Definition AddStage (p : Pipeline P) (stage : Event P -> Event P + string) : Pipeline P :=
  mkPipeline (stages p ++ [stage]) (pinput p) (poutput p) (perrors p) (ppending p) (pdone p) (pexited p).

(** The stage loop: the first error stops it. *)
Fixpoint run_stages (sts : list (Event P -> Event P + string)) (e : Event P) : Event P + string :=
  match sts with
  | [] => inl e
  | st :: rest =>
      match st e with
      | inl e' => run_stages rest e'
      | inr err => inr err
      end
  end.

(** Closing both outputs: [close(p.output); close(p.errors)]. *)
Definition close_outputs (p : Pipeline P) : option (Pipeline P) :=
  match close (poutput p), close (perrors p) with
  | Some o, Some er => Some (mkPipeline (stages p) (pinput p) o er (ppending p) (pdone p) true)
  | _, _ => None
  end.

(** The goroutine started by [Start], one step at a time. At the top of
    its loop ([ppending = None]) it selects between [ctx.Done()] and a
    receive on [p.input]; both exits close [p.output] and [p.errors]. A
    received event is taken off the input and run through the stages;
    the goroutine then blocks in one send, [p.errors <- err] or
    [p.output <- event], which does not watch [ctx.Done()]: with no reader
    modelled it completes only when the buffer has room, and a send on a
    closed channel panics ([None]). *)
Inductive pipeline_step : Pipeline P -> option (Pipeline P) -> Prop :=
  | ps_done : forall p,
      pexited p = false -> ppending p = None -> pdone p = true ->
      pipeline_step p (close_outputs p)
  | ps_input_closed : forall p,
      pexited p = false -> ppending p = None ->
      buf (pinput p) = [] -> closed (pinput p) = true ->
      pipeline_step p (close_outputs p)
  | ps_recv : forall p e rest,
      pexited p = false -> ppending p = None -> buf (pinput p) = e :: rest ->
      pipeline_step p (Some (mkPipeline (stages p) (mkChan rest (cap (pinput p)) (closed (pinput p)))
                              (poutput p) (perrors p) (Some (run_stages (stages p) e))
                              (pdone p) false))
  | ps_send_out : forall p e',
      pexited p = false -> ppending p = Some (inl e') ->
      closed (poutput p) = false -> has_room (poutput p) = true ->
      pipeline_step p (Some (mkPipeline (stages p) (pinput p) (enqueue (poutput p) e')
                              (perrors p) None (pdone p) false))
  | ps_send_out_closed : forall p e',
      pexited p = false -> ppending p = Some (inl e') -> closed (poutput p) = true ->
      pipeline_step p None
  | ps_send_err : forall p err,
      pexited p = false -> ppending p = Some (inr err) ->
      closed (perrors p) = false -> has_room (perrors p) = true ->
      pipeline_step p (Some (mkPipeline (stages p) (pinput p) (poutput p)
                              (enqueue (perrors p) err) None (pdone p) false))
  | ps_send_err_closed : forall p err,
      pexited p = false -> ppending p = Some (inr err) -> closed (perrors p) = true ->
      pipeline_step p None.

End PipelineOps.

(** *** Derived notions used by the properties below *)

Section Derived.

Context {P : Type}.

(** The effect of one [delete(subs, id)] on a topic entry, with the
    deletion of the topic when it becomes empty. *)
Definition drop_id (id : string) (o : option (gmap string nat)) : option (gmap string nat) :=
  match o with
  | Some m => let m' := delete id m in if bool_decide (m' = ∅) then None else Some m'
  | None => None
  end.

(** The invariant of the bus: every registry entry [topic -> id -> p]
    points to a live subscriber with that id, that topic and an open
    channel; addresses from [next] on are unallocated. *)
Definition wf (ps : PubSub P) : Prop :=
  (forall t i p, topic_subs ps t !! i = Some p ->
     exists s, heap ps !! p = Some s /\ ID s = i /\ t ∈ Topics s /\ closed (Channel s) = false) /\
  (forall p, next ps <= p -> heap ps !! p = None).

(** A subscriber after a successful send of [e] on its channel. *)
Definition deliver (s : Subscriber P) (e : Event P) : Subscriber P :=
  mkSubscriber (ID s) (Topics s) (enqueue (Channel s) e) (cancelled s).

(** Whether the queue of the subscriber at [p] grew by one element. *)
Definition grew (h h' : gmap nat (Subscriber P)) (p : nat) : bool :=
  match h !! p, h' !! p with
  | Some s, Some s' => Nat.eqb (length (buf (Channel s'))) (S (length (buf (Channel s))))
  | _, _ => false
  end.

End Derived.

End Channel.

(** ** The rest of the Hub and of its clients *)

Module WebsocketMore.
Import Websocket.

(** [NewHub]: no client and no room. [send0] gives the [send] channel
    each client object is created with by [NewClient]; a new client's
    [rooms] map is empty. *)
Definition NewHub (send0 : nat -> Chan Bytes) : Hub :=
  mkHub ∅ ∅ (fun _ => ∅) send0.

(** A request received by the [select] of [Hub.Run]. *)
Inductive Request :=
  | RegisterReq (c : nat)
  | UnregisterReq (c : nat)
  | JoinReq (c : nat) (room : string)
  | LeaveReq (c : nat) (room : string)
  | BroadcastReq (m : Message).

(** [GetConnectedClients]. *)
Definition GetConnectedClients (h : Hub) : nat := size (clients h).

Section MoreOps.

Variable encode : Message -> option Bytes.

(** One iteration of [Hub.Run]: the handler of the request received. *)
Definition run_request (h : Hub) (req : Request) : option Hub :=
  match req with
  | RegisterReq c => Some (registerClient h c)
  | UnregisterReq c => unregisterClient h c
  | JoinReq c room => Some (addClientToRoom h c room)
  | LeaveReq c room => Some (removeClientFromRoom h c room)
  | BroadcastReq m => broadcastMessage encode h m
  end.

(** [BroadcastToUser(userID, message)]; [userID c] is the [UserID] field
    of client [c], fixed by [NewClient]. *)
Definition BroadcastToUser (userID : nat -> string) (h : Hub) (u : string) (m : Message)
  : option Hub :=
  match encode m with
  | None => Some h
  | Some data => deliver_all (filter (fun c => userID c = u) (elements (clients h))) data h
  end.

(** The errors [Client.Send] returns. *)
Inductive SendError := EncodeError | ErrBufferFull.

(** [Client.Send(message)] on the client's [send] channel: the new
    channel and the error returned, or [None] for a panic (a send on a
    closed channel). *)
Definition ClientSend (ch : Chan Bytes) (m : Message) : option (Chan Bytes * option SendError) :=
  match encode m with
  | None => Some (ch, Some EncodeError)
  | Some data =>
      if closed ch then None
      else if has_room ch then Some (enqueue ch data, None)
      else Some (ch, Some ErrBufferFull)
  end.

(** What [Client.handleMessage] does with a decoded message. *)
Inductive Action :=
  | ActJoin (room : string)
  | ActLeave (room : string)
  | ActBroadcast (m : Message)
  | ActSendSelf (data : Bytes)
  | ActNone.

(** [Client.handleMessage]; [decodeRoom] is the [json.Unmarshal] of the
    payload into [struct { Room string }]. *)
Definition handleMessage (decodeRoom : Bytes -> option string) (m : Message) : Action :=
  if String.eqb (Type_ m) "join" then
    match decodeRoom (Payload m) with
    | Some r => if String.eqb r "" then ActNone else ActJoin r
    | None => ActNone
    end
  else if String.eqb (Type_ m) "leave" then
    match decodeRoom (Payload m) with
    | Some r => if String.eqb r "" then ActNone else ActLeave r
    | None => ActNone
    end
  else if String.eqb (Type_ m) "broadcast" then ActBroadcast m
  else if String.eqb (Type_ m) "room" then
    (if String.eqb (Room m) "" then ActNone else ActBroadcast (BroadcastToRoom (Room m) m))
  else if String.eqb (Type_ m) "ping" then
    match encode (mkMessage "pong" "" []) with
    | Some data => ActSendSelf data
    | None => ActNone
    end
  else ActNone.

End MoreOps.

(** What the callers of the Hub guarantee: a client is registered (by
    [HandleConnection]) as a new object, whose [send] channel is open,
    and its join requests (from its [ReadPump]) come while it is
    registered, since [ReadPump] sends its [unregister] last. *)
Definition req_allowed (h : Hub) (req : Request) : Prop :=
  match req with
  | RegisterReq c => closed (send h c) = false
  | JoinReq c _ => c ∈ clients h
  | _ => True
  end.

(** The Hub states reachable from [NewHub] by [Hub.Run]. *)
Inductive hub_reach (encode : Message -> option Bytes) (send0 : nat -> Chan Bytes) : Hub -> Prop :=
  | reach_new : hub_reach encode send0 (NewHub send0)
  | reach_step : forall h req h',
      hub_reach encode send0 h -> req_allowed h req ->
      run_request encode h req = Some h' -> hub_reach encode send0 h'.

(** The invariant of the Hub: registered clients have open queues; every
    room is non-empty and holds registered clients only; the membership
    records agree; a client that is not registered and whose queue is
    open (a new one) has no room. *)
Definition hub_inv (h : Hub) : Prop :=
  (forall c, c ∈ clients h -> closed (send h c) = false) /\
  (forall r cs, rooms h !! r = Some cs -> cs <> ∅ /\ cs ⊆ clients h) /\
  consistent h /\
  (forall c, c ∉ clients h -> closed (send h c) = false -> crooms h c = ∅).

End WebsocketMore.

(** ** The [*Message] objects shared by the callers and the Hub *)

Module WebsocketHeap.
Import Websocket WebsocketMore.



Section HeapOps.

Variable encode : Message -> option Bytes.





End HeapOps.

End WebsocketHeap.

(** ** The rest of the bus *)

Module ChannelMore.
Import Channel.

Section MoreOps.

Context {P : Type}.

(** [GetTopics]: the keys of [ps.subscribers] (in map order). *)
Definition GetTopics (ps : PubSub P) : list string := (map_to_list (subscribers ps)).*1.

(** No topic of the registry has an empty map. *)
Definition no_empty_topics (ps : PubSub P) : Prop :=
  forall t m, subscribers ps !! t = Some m -> m <> ∅.

(** The bus states reachable from [NewPubSub bs]. *)
Inductive bus_reach (bs : Z) : PubSub P -> Prop :=
  | br_new : bus_reach bs (NewPubSub bs)
  | br_subscribe : forall ps b id topics,
      bus_reach bs ps -> bus_reach bs (fst (Subscribe ps b id topics))
  | br_unsubscribe : forall ps p ps',
      bus_reach bs ps -> Unsubscribe ps p = Some ps' -> bus_reach bs ps'
  | br_publish : forall ps topic x now ps' n,
      bus_reach bs ps -> Publish ps topic x now (Some (ps', n)) -> bus_reach bs ps'.

(** [type WorkerPool struct { topic; workers; subscriber }]. *)
Record WorkerPool := mkWorkerPool {
  wp_topic : string;
  wp_workers : Z;
  wp_sub : option nat
}.

(** [NewWorkerPool]: a non-positive worker count becomes 1. *)
Definition NewWorkerPool (topic : string) (workers : Z) : WorkerPool :=
  mkWorkerPool topic (if (workers <=? 0)%Z then 1%Z else workers) None.

(** [WorkerPool.Start(ctx)]: subscribes ["worker-pool-" + topic] to the
    topic (the workers only read the subscriber's channel). *)
Definition WP_Start (ps : PubSub P) (parent_done : bool) (wp : WorkerPool) : PubSub P * WorkerPool :=
  let '(ps', p) := Subscribe ps parent_done ("worker-pool-" ++ wp_topic wp) [wp_topic wp] in
  (ps', mkWorkerPool (wp_topic wp) (wp_workers wp) (Some p)).

(** [WorkerPool.Stop()]: unsubscribes when a subscriber was set. *)
Definition WP_Stop (ps : PubSub P) (wp : WorkerPool) : option (PubSub P) :=
  match wp_sub wp with
  | Some p => Unsubscribe ps p
  | None => Some ps
  end.

End MoreOps.

End ChannelMore.

(** * Concrete states *)

Module Examples.
Import Websocket.

(** An encoder that never fails (the raw payload as the wire bytes). *)
Definition enc0 (m : Message) : option Bytes := Some (Payload m).

Definition open_chan : Chan Bytes := mkChan [] sendBufferSize false.

(** Three registered clients 1, 2, 3; clients 1 and 2 are in room "chat". *)
Definition hub0 : Hub :=
  mkHub {[1; 2; 3]} {["chat" := {[1; 2]}]}
        (fun c => if (c =? 1) || (c =? 2) then {["chat"]} else ∅)
        (fun _ => open_chan).

Definition msg0 : Message := mkMessage "room" "" [].

(** The bus of the spec's scenario: default buffer size, subscriber "s1"
    on topics "a" and "b" (payloads are numbers). *)
Definition bus0 : Channel.PubSub nat := Channel.NewPubSub 0.

Definition bus1 : Channel.PubSub nat := fst (Channel.Subscribe bus0 false "s1" ["a"; "b"]).

Definition sub1 : nat := snd (Channel.Subscribe bus0 false "s1" ["a"; "b"]).

(** Two registered clients with queues of capacity 1; the queue of
    client 2 is full. *)
Definition hub_full : Hub :=
  mkHub {[1; 2]} ∅ (fun _ => ∅)
        (fun c => if c =? 2 then mkChan [[]] 1 false else mkChan [] 1 false).

(** A bus with buffer size 1 and subscriber "s1" on "a" and "b"; after
    one publish on "a" its queue is full ([busf1]). *)
Definition busf0 : Channel.PubSub nat :=
  fst (Channel.Subscribe (Channel.NewPubSub 1) false "s1" ["a"; "b"]).

Definition sub_full : Channel.Subscriber nat :=
  Channel.mkSubscriber "s1" ["a"; "b"] (mkChan [Channel.mkEvent "a" 7 0] 1 false) false.

Definition busf1 : Channel.PubSub nat :=
  Channel.mkPubSub (Channel.subscribers busf0) (<[0 := sub_full]> (Channel.heap busf0))
    (Channel.next busf0) (Channel.bufferSize busf0).

(** A producer closing the input channel ([close(f.Input())]). *)
Definition fanout_close_input {P} (f : Channel.Fanout P) : option (Channel.Fanout P) :=
  (fun inp => Channel.mkFanout inp (Channel.foutputs f) (Channel.fdone f) (Channel.fexited f))
    <$> close (Channel.finput f).

(** A fanout with one output, whose input the producer has closed while
    its context is still live. *)
Definition fanout1 : Channel.Fanout nat :=
  Channel.AddOutput (Channel.NewFanout false 1) 1.

Definition fanout1_closed : Channel.Fanout nat :=
  default fanout1 (fanout_close_input fanout1).

(** A pipeline whose input the producer has closed. *)
Definition pipeline1_closed : Channel.Pipeline nat :=
  let p := Channel.NewPipeline false 1 in
  Channel.mkPipeline (Channel.stages p) (mkChan [] 1 true) (Channel.poutput p)
    (Channel.perrors p) (Channel.ppending p) (Channel.pdone p) (Channel.pexited p).

End Examples.

(** * The claims as the spec states them *)

Module Stated.
Import Websocket.

(** C7 as stated: a join followed by a leave restores the room size. *)
Definition join_leave_restores_size : Prop :=
  forall h c r, GetRoomClients (removeClientFromRoom (addClientToRoom h c r) c r) r = GetRoomClients h r.


(** C2's end-to-end scenario: subscribe "s1" to "a" and "b"; publishing on
    "a" delivers to 1 subscriber, on "c" to 0; after unsubscribing "s1",
    publishing on "a" delivers to 0. *)
Definition s1_scenario : Prop :=
  (exists r, Channel.Publish Examples.bus1 "a" 7 0 r) /\
  forall r, Channel.Publish Examples.bus1 "a" 7 0 r ->
    exists ps2, r = Some (ps2, 1) /\
      (forall r', Channel.Publish ps2 "c" 7 1 r' -> r' = Some (ps2, 0)) /\
      exists ps3, Channel.Unsubscribe ps2 Examples.sub1 = Some ps3 /\
        (forall r'', Channel.Publish ps3 "a" 7 2 r'' -> r'' = Some (ps3, 0)).

(** C8 as stated, for the Fanout: whenever [run] returns, every output has
    been closed. *)
Definition fanout_exit_closes_outputs {P} (f : Channel.Fanout P) : Prop :=
  forall f', Channel.fanout_step f (Some f') -> Channel.fexited f' = true ->
    Forall (fun ch => closed ch = true) (Channel.foutputs f').

End Stated.

(** * Properties of the Hub *)

Module HubFacts.
Import Websocket.

Lemma upd_eq {A} (f : nat -> A) k v : upd f k v k = v.
Proof. unfold upd. by rewrite Nat.eqb_refl. Qed.

Lemma upd_ne {A} (f : nat -> A) k v k' : k' <> k -> upd f k v k' = f k'.
Proof. intros Hne. unfold upd. destruct (Nat.eqb_spec k' k); congruence. Qed.

Lemma offer_closed {A} (ch : Chan A) x : closed (offer ch x) = closed ch.
Proof. unfold offer. by destruct (has_room ch). Qed.

Lemma offer_cap {A} (ch : Chan A) x : cap (offer ch x) = cap ch.
Proof. unfold offer. by destruct (has_room ch). Qed.

(** The drop-on-full send never exceeds the bound and leaves a full
    channel as it is. *)
Lemma offer_bound {A} (ch : Chan A) x :
  length (buf ch) <= cap ch -> length (buf (offer ch x)) <= cap (offer ch x).
Proof.
  unfold offer, has_room, enqueue. destruct (Nat.ltb_spec (length (buf ch)) (cap ch)); simpl.
  - rewrite length_app. simpl. lia.
  - lia.
Qed.

Lemma offer_full {A} (ch : Chan A) x : has_room ch = false -> offer ch x = ch.
Proof. unfold offer. by intros ->. Qed.

(** The delivery loop touches only the queues of the listed clients, each
    with one drop-on-full send. *)
Lemma deliver_all_spec cs data h h' :
  NoDup cs -> deliver_all cs data h = Some h' ->
  clients h' = clients h /\ rooms h' = rooms h /\ crooms h' = crooms h /\
  forall c, send h' c = if bool_decide (c ∈ cs) then offer (send h c) data else send h c.
Proof.
  revert h. induction cs as [|c cs IH]; intros h Hnd Hd; simpl in Hd.
  - injection Hd as <-. repeat split; intros c0; by rewrite bool_decide_false by set_solver.
  - apply NoDup_cons in Hnd as [Hnin Hnd].
    unfold try_send in Hd. destruct (closed (send h c)) eqn:Hcl; [discriminate|].
    destruct (IH _ Hnd Hd) as (E1 & E2 & E3 & E4); simpl in *.
    repeat split; try assumption. intros c0. rewrite E4.
    destruct (Nat.eq_dec c0 c) as [->|Hne].
    + rewrite bool_decide_false by done. rewrite bool_decide_true by set_solver.
      by rewrite upd_eq.
    + rewrite upd_ne by done.
      by rewrite (bool_decide_ext (c0 ∈ c :: cs) (c0 ∈ cs)) by set_solver.
Qed.

Lemma deliver_all_progress cs data h :
  (forall c, c ∈ cs -> closed (send h c) = false) ->
  exists h', deliver_all cs data h = Some h'.
Proof.
  revert h. induction cs as [|c cs IH]; intros h Hop; simpl.
  - eauto.
  - unfold try_send. rewrite Hop by set_solver.
    apply IH. intros c0 Hc0. simpl. destruct (Nat.eq_dec c0 c) as [->|Hne].
    + rewrite upd_eq, offer_closed. apply Hop. set_solver.
    + rewrite upd_ne by done. apply Hop. set_solver.
Qed.

(** The recipients of [broadcastMessage], as the code selects them. *)
Lemma broadcastMessage_shape encode h m h' :
  broadcastMessage encode h m = Some h' ->
  h' = h \/ exists cs data, NoDup cs /\ deliver_all cs data h = Some h'.
Proof.
  unfold broadcastMessage. destruct (encode m) as [data|].
  - case_bool_decide.
    + destruct (rooms h !! Room m) as [cs|].
      * intros Hd. right. exists (elements cs), data. split; [apply NoDup_elements|done].
      * intros [= <-]. by left.
    + intros Hd. right. exists (elements (clients h)), data. split; [apply NoDup_elements|done].
  - intros [= <-]. by left.
Qed.

Lemma in_room_add h c r r0 c0 :
  in_room (addClientToRoom h c r) r0 c0 <-> (r0 = r /\ c0 = c) \/ in_room h r0 c0.
Proof.
  unfold in_room, addClientToRoom. simpl. rewrite lookup_insert.
  case_decide as Hr.
  - subst r0. destruct (rooms h !! r); simpl; set_solver.
  - destruct (rooms h !! r0); set_solver.
Qed.

Lemma in_room_remove_some h c r cs r0 c0 :
  rooms h !! r = Some cs ->
  in_room (removeClientFromRoom h c r) r0 c0 <-> in_room h r0 c0 /\ ~ (r0 = r /\ c0 = c).
Proof.
  intros Hr. unfold in_room, removeClientFromRoom. rewrite Hr. simpl.
  case_bool_decide as He.
  - rewrite lookup_delete. case_decide as Hr0.
    + subst r0. rewrite Hr. split; [done|]. intros [Hin Hn].
      assert (c0 ∈ cs ∖ {[c]}) by set_solver. set_solver.
    + destruct (rooms h !! r0); set_solver.
  - rewrite lookup_insert. case_decide as Hr0.
    + subst r0. rewrite Hr. set_solver.
    + destruct (rooms h !! r0); set_solver.
Qed.

Lemma in_room_prune h c r0 c0 :
  (match omap (prune c) (rooms h) !! r0 with Some cs => c0 ∈ cs | None => False end)
  <-> in_room h r0 c0 /\ c0 <> c.
Proof.
  unfold in_room. rewrite lookup_omap. destruct (rooms h !! r0) as [cs|]; simpl; [|tauto].
  unfold prune. case_bool_decide as Hc.
  - case_bool_decide as He.
    + split; [done|]. intros [Hin Hn]. assert (c0 ∈ cs ∖ {[c]}) by set_solver. set_solver.
    + set_solver.
  - split; [|tauto]. intros Hin. split; [done|]. intros ->. contradiction.
Qed.

Lemma crooms_add h c r c0 :
  crooms (addClientToRoom h c r) c0 = if Nat.eqb c0 c then {[r]} ∪ crooms h c else crooms h c0.
Proof. reflexivity. Qed.

End HubFacts.


Module HubClaims.
Import Websocket HubFacts Examples Stated.

(** C3: every mutation of the Hub (JoinRoom, LeaveRoom, Unregister)
    preserves the bidirectional consistency between the Hub's room member
    sets and each registered client's own [rooms] set. *)
Theorem hub_mutations_preserve_consistency (h : Hub) (c : nat) (r : string) :
  consistent h ->
  consistent (addClientToRoom h c r) /\
  consistent (removeClientFromRoom h c r) /\
  (forall h', unregisterClient h c = Some h' -> consistent h').
Proof.
  intros Hcons. split; [|split].
  - intros c0 r0 Hc0. simpl in Hc0. rewrite in_room_add, crooms_add.
    specialize (Hcons c0 r0 Hc0).
    destruct (Nat.eqb_spec c0 c) as [->|Hne].
    + rewrite elem_of_union, elem_of_singleton. intuition congruence.
    + intuition congruence.
  - destruct (rooms h !! r) as [cs|] eqn:Hr.
    + intros c0 r0 Hc0. simpl in Hc0.
      assert (Hc0' : c0 ∈ clients h) by (unfold removeClientFromRoom in Hc0; rewrite Hr in Hc0; exact Hc0).
      rewrite (in_room_remove_some h c r cs) by done.
      specialize (Hcons c0 r0 Hc0'). unfold removeClientFromRoom. rewrite Hr. simpl.
      destruct (Nat.eq_dec c0 c) as [->|Hne].
      * rewrite upd_eq, elem_of_difference, elem_of_singleton. intuition congruence.
      * rewrite upd_ne by done. intuition congruence.
    + unfold removeClientFromRoom. by rewrite Hr.
  - intros h'. unfold unregisterClient. case_bool_decide as Hc.
    + destruct (close (send h c)) as [ch|]; [|discriminate]. intros [= <-].
      intros c0 r0 Hc0. simpl in Hc0. unfold in_room at 1. simpl.
      rewrite in_room_prune. apply elem_of_difference in Hc0 as [Hc0 Hne].
      rewrite elem_of_singleton in Hne. specialize (Hcons c0 r0 Hc0). tauto.
    + intros [= <-]. done.
Qed.

Lemma hub0_consistent : consistent hub0.
Proof.
  intros c r Hc. unfold in_room. simpl. rewrite lookup_singleton.
  assert (Hc' : c = 1 \/ c = 2 \/ c = 3) by set_solver.
  destruct Hc' as [ -> | [ -> | -> ] ]; simpl; case_decide; subst; set_solver.
Qed.

Lemma hub_mutations_preserve_consistency_witness :
  consistent hub0 /\
  consistent (addClientToRoom hub0 3 "chat") /\
  consistent (removeClientFromRoom hub0 1 "chat") /\
  (forall h', unregisterClient hub0 2 = Some h' -> consistent h').
Proof.
  split; [exact hub0_consistent|].
  destruct (hub_mutations_preserve_consistency hub0 3 "chat" hub0_consistent) as [H1 _].
  destruct (hub_mutations_preserve_consistency hub0 1 "chat" hub0_consistent) as [_ [H2 _]].
  destruct (hub_mutations_preserve_consistency hub0 2 "chat" hub0_consistent) as [_ [_ H3]].
  split; [exact H1|split; [exact H2|exact H3]].
Defined.

(** C5: unregistering a registered client whose queue is open removes it
    from the live set and from every room, closes its queue (and no other
    one), deletes every room the removal left empty, keeps every other
    membership, and a second unregistration changes nothing. *)
Theorem unregister_spec (h : Hub) (c : nat) :
  c ∈ clients h -> closed (send h c) = false ->
  exists h',
    unregisterClient h c = Some h' /\
    clients h' = clients h ∖ {[c]} /\
    (forall r, ~ in_room h' r c) /\
    (forall r c0, c0 <> c -> (in_room h' r c0 <-> in_room h r c0)) /\
    send h' c = mkChan (buf (send h c)) (cap (send h c)) true /\
    (forall c0, c0 <> c -> send h' c0 = send h c0) /\
    (forall r cs, rooms h !! r = Some cs -> c ∈ cs -> cs ∖ {[c]} = ∅ -> rooms h' !! r = None) /\
    unregisterClient h' c = Some h'.
Proof.
  intros Hc Hopen. unfold unregisterClient at 1.
  rewrite bool_decide_true by done. unfold close at 1. rewrite Hopen.
  eexists. split; [reflexivity|].
  split; [reflexivity|].
  split; [intros r; unfold in_room; simpl; rewrite in_room_prune; tauto|].
  split; [intros r c0 Hne; unfold in_room at 1; simpl; rewrite in_room_prune; tauto|].
  split; [simpl; by rewrite upd_eq|].
  split; [intros c0 Hne; simpl; by rewrite upd_ne|].
  split.
  - intros r cs Hr Hin He. simpl. rewrite lookup_omap, Hr. simpl. unfold prune.
    rewrite bool_decide_true by done. by rewrite bool_decide_true.
  - unfold unregisterClient. rewrite bool_decide_false by (simpl; set_solver). reflexivity.
Qed.

Lemma unregister_spec_witness :
  exists h',
    unregisterClient hub0 1 = Some h' /\
    clients h' = clients hub0 ∖ {[1]} /\
    (forall r, ~ in_room h' r 1) /\
    (forall r c0, c0 <> 1 -> (in_room h' r c0 <-> in_room hub0 r c0)) /\
    send h' 1 = mkChan (buf (send hub0 1)) (cap (send hub0 1)) true /\
    (forall c0, c0 <> 1 -> send h' c0 = send hub0 c0) /\
    (forall r cs, rooms hub0 !! r = Some cs -> 1 ∈ cs -> cs ∖ {[1]} = ∅ -> rooms h' !! r = None) /\
    unregisterClient h' 1 = Some h'.
Proof.
  apply unregister_spec; [vm_compute; set_solver|reflexivity].
Defined.


(** C6 fails for the empty room name: [BroadcastToRoom("", m)] leaves
    [m.Room] empty, which [broadcastMessage] reads as "every client". Every
    registered client is offered the message, whether or not it is in a
    room named "", and whether or not such a room exists. *)
Theorem broadcast_to_room_empty_name_reaches_all (encode : Message -> option Bytes)
    (h : Hub) (m : Message) (data : Bytes) :
  encode (BroadcastToRoom "" m) = Some data ->
  (forall c, c ∈ clients h -> closed (send h c) = false) ->
  exists h',
    snd (BroadcastToRoom_run encode h "" m) = Some h' /\
    clients h' = clients h /\ rooms h' = rooms h /\
    (forall c, c ∈ clients h -> send h' c = offer (send h c) data).
Proof.
  intros Henc Hopen. unfold BroadcastToRoom_run, broadcastMessage. simpl.
  rewrite Henc.
  destruct (deliver_all_progress (elements (clients h)) data h) as [h' Hd].
  { intros c Hc. apply Hopen. by apply elem_of_elements. }
  destruct (deliver_all_spec _ _ _ _ (NoDup_elements _) Hd) as (E1 & E2 & _ & E4).
  exists h'. split; [done|]. split; [done|]. split; [done|].
  intros c Hc. rewrite E4. by rewrite bool_decide_true by (by apply elem_of_elements).
Qed.

Lemma broadcast_to_room_empty_name_reaches_all_witness :
  rooms hub0 !! "" = None /\ ~ in_room hub0 "chat" 3 /\ 3 ∈ clients hub0 /\
  exists h',
    snd (BroadcastToRoom_run enc0 hub0 "" msg0) = Some h' /\
    clients h' = clients hub0 /\ rooms h' = rooms hub0 /\
    (forall c, c ∈ clients hub0 -> send h' c = offer (send hub0 c) []).
Proof.
  split; [reflexivity|]. split; [unfold in_room; simpl; set_solver|].
  split; [vm_compute; set_solver|].
  apply broadcast_to_room_empty_name_reaches_all; [reflexivity|intros c _; reflexivity].
Defined.


(** C7 fails for a client already in the room: the join does not add it a
    second time, the leave removes it. Room "chat" of [hub0] has 2 members
    before, 1 after. *)
Lemma join_leave_member_shrinks_room :
  GetRoomClients hub0 "chat" = 2 /\
  GetRoomClients (removeClientFromRoom (addClientToRoom hub0 1 "chat") 1 "chat") "chat" = 1 /\
  ~ join_leave_restores_size.
Proof.
  split; [vm_compute; reflexivity|]. split; [vm_compute; reflexivity|].
  intros Hj. specialize (Hj hub0 1 "chat"). vm_compute in Hj. discriminate.
Qed.

(** C7 (amended): for a client not already in room [r], joining then
    leaving restores [GetRoomClients r], and if the room had no member, it
    is absent from the registry afterwards. For a client already in [r],
    the join leaves the room registry as it was and the leave removes the
    client: [GetRoomClients r] drops by one, and the room is absent
    afterwards when the client was its last member. *)
Theorem join_leave_room_size (h : Hub) (c : nat) (r : string) :
  (~ in_room h r c ->
   GetRoomClients (removeClientFromRoom (addClientToRoom h c r) c r) r = GetRoomClients h r /\
   (GetRoomClients h r = 0 ->
    rooms (removeClientFromRoom (addClientToRoom h c r) c r) !! r = None)) /\
  (in_room h r c ->
   rooms (addClientToRoom h c r) = rooms h /\
   GetRoomClients (removeClientFromRoom (addClientToRoom h c r) c r) r = GetRoomClients h r - 1 /\
   (GetRoomClients h r = 1 ->
    rooms (removeClientFromRoom (addClientToRoom h c r) c r) !! r = None)).
Proof.
  split.
  - intros Hnot. unfold in_room in Hnot.
    set (cs0 := default ∅ (rooms h !! r)).
    assert (Hc : c ∉ cs0) by (unfold cs0; destruct (rooms h !! r); simpl; set_solver).
    assert (Hcs : ({[c]} ∪ cs0) ∖ {[c]} = cs0) by set_solver.
    unfold removeClientFromRoom, addClientToRoom, GetRoomClients. simpl.
    rewrite lookup_insert_eq. fold cs0. rewrite Hcs.
    case_bool_decide as He; simpl.
    + rewrite lookup_delete_eq.
      unfold cs0 in He. destruct (rooms h !! r); simpl in He |- *; [subst; split; done|split; done].
    + rewrite lookup_insert_eq. unfold cs0 in He |- *.
      destruct (rooms h !! r); simpl in He |- *; [split; [done|intros Hs; exfalso; apply He; apply leibniz_equiv; by apply size_empty_inv]|done].
  - intros Hin. unfold in_room in Hin. destruct (rooms h !! r) as [cs|] eqn:Hr; [|done].
    assert (Hu : {[c]} ∪ cs = cs) by (apply leibniz_equiv; set_solver).
    assert (Hadd : rooms (addClientToRoom h c r) = rooms h).
    { unfold addClientToRoom. simpl. rewrite Hr. simpl. rewrite Hu. by apply insert_id. }
    assert (Hsz : size (cs ∖ {[c]}) = size cs - 1).
    { rewrite size_difference by set_solver. by rewrite size_singleton. }
    split; [exact Hadd|].
    unfold removeClientFromRoom, GetRoomClients. rewrite Hadd, Hr.
    case_bool_decide as He; simpl.
    + rewrite lookup_delete_eq. split; [|done]. rewrite <- Hsz, He. by rewrite size_empty.
    + rewrite lookup_insert_eq. split; [exact Hsz|]. intros H1. exfalso. apply He.
      apply leibniz_equiv. apply size_empty_inv. lia.
Qed.

Lemma join_leave_room_size_witness :
  ~ in_room hub0 "chat" 3 /\ in_room hub0 "chat" 1 /\
  (~ in_room hub0 "chat" 3 ->
   GetRoomClients (removeClientFromRoom (addClientToRoom hub0 3 "chat") 3 "chat") "chat" = GetRoomClients hub0 "chat" /\
   (GetRoomClients hub0 "chat" = 0 ->
    rooms (removeClientFromRoom (addClientToRoom hub0 3 "chat") 3 "chat") !! "chat" = None)) /\
  (in_room hub0 "chat" 1 ->
   rooms (addClientToRoom hub0 1 "chat") = rooms hub0 /\
   GetRoomClients (removeClientFromRoom (addClientToRoom hub0 1 "chat") 1 "chat") "chat" = GetRoomClients hub0 "chat" - 1 /\
   (GetRoomClients hub0 "chat" = 1 ->
    rooms (removeClientFromRoom (addClientToRoom hub0 1 "chat") 1 "chat") !! "chat" = None)).
Proof.
  split; [unfold in_room; simpl; set_solver|].
  split; [unfold in_room; simpl; set_solver|].
  split; [exact (proj1 (join_leave_room_size hub0 3 "chat"))|].
  exact (proj2 (join_leave_room_size hub0 1 "chat")).
Defined.




End HubClaims.

(** * Properties of the bus *)

Module PubSubFacts.
Import Channel HubFacts.

Section Facts.

Context {P : Type}.
Implicit Types (ps : PubSub P) (h : gmap nat (Subscriber P)) (e : Event P).

Lemma register_topics_lookup id p ts (subs : gmap string (gmap string nat)) t :
  register_topics id p ts subs !! t =
  if bool_decide (t ∈ ts) then Some (<[id := p]> (default ∅ (subs !! t))) else subs !! t.
Proof.
  revert subs. induction ts as [|t0 ts IH]; intros subs.
  - by rewrite bool_decide_false by set_solver.
  - change (register_topics id p (t0 :: ts) subs) with
      (register_topics id p ts (<[t0 := <[id := p]> (default ∅ (subs !! t0))]> subs)).
    rewrite IH. rewrite lookup_insert.
    destruct (decide (t0 = t)) as [Heq|Hne]; [subst t0|].
    + rewrite (bool_decide_true (t ∈ t :: ts)) by set_solver.
      case_bool_decide; simpl; [by rewrite insert_insert_eq|done].
    + rewrite (bool_decide_ext (t ∈ t0 :: ts) (t ∈ ts)) by set_solver. done.
Qed.

Lemma drop_id_idemp id (o : option (gmap string nat)) : drop_id id (drop_id id o) = drop_id id o.
Proof.
  destruct o as [m|]; simpl; [|done].
  case_bool_decide as He; simpl; [done|].
  rewrite delete_delete_eq. by rewrite bool_decide_false.
Qed.

Lemma unregister_topics_lookup id ts (subs : gmap string (gmap string nat)) t :
  unregister_topics id ts subs !! t =
  if bool_decide (t ∈ ts) then drop_id id (subs !! t) else subs !! t.
Proof.
  revert subs. induction ts as [|t0 ts IH]; intros subs.
  - by rewrite bool_decide_false by set_solver.
  - set (acc := match subs !! t0 with
                | Some m => let m' := delete id m in
                            if bool_decide (m' = ∅) then delete t0 subs else <[t0 := m']> subs
                | None => subs end).
    change (unregister_topics id (t0 :: ts) subs) with (unregister_topics id ts acc).
    assert (Hacc : forall t', acc !! t' = if decide (t0 = t') then drop_id id (subs !! t0) else subs !! t').
    { intros t'. unfold acc. destruct (subs !! t0) as [m|] eqn:Ht0; unfold drop_id; cbv zeta.
      - destruct (bool_decide (delete id m = ∅)).
        + rewrite lookup_delete. by destruct (decide (t0 = t')).
        + rewrite lookup_insert. by destruct (decide (t0 = t')).
      - destruct (decide (t0 = t')) as [<-|]; [exact Ht0|done]. }
    rewrite IH, !Hacc.
    destruct (decide (t0 = t)) as [Heq|Hne]; [subst t0|].
    + rewrite (bool_decide_true (t ∈ t :: ts)) by set_solver.
      case_bool_decide; [apply drop_id_idemp|done].
    + rewrite (bool_decide_ext (t ∈ t0 :: ts) (t ∈ ts)) by set_solver. done.
Qed.

(** Pointers of a map whose values identify their keys are distinct. *)
Lemma NoDup_snd_inj (l : list (string * nat)) :
  NoDup l.*1 -> (forall a b v, (a, v) ∈ l -> (b, v) ∈ l -> a = b) -> NoDup l.*2.
Proof.
  induction l as [|[a v] l IH]; intros Hnd Hinj; simpl; [constructor|].
  simpl in Hnd. apply NoDup_cons in Hnd as [Hna Hnd].
  apply NoDup_cons. split.
  - intros Hv. apply list_elem_of_fmap_1 in Hv as [[b v'] [Heq Hb]]. simpl in Heq. subst v'.
    assert (a = b) as <- by (apply (Hinj a b v); set_solver).
    apply Hna. apply list_elem_of_fmap. exists (a, v). split; [done|exact Hb].
  - apply IH; [done|]. intros a' b' v' Ha Hb. apply (Hinj a' b' v'); set_solver.
Qed.

Lemma wf_nodup ps t : wf ps -> NoDup (map_to_list (topic_subs ps t)).*2.
Proof.
  intros [Hwf _]. apply NoDup_snd_inj; [apply NoDup_fst_map_to_list|].
  intros a b v Ha Hb. apply elem_of_map_to_list in Ha, Hb.
  destruct (Hwf _ _ _ Ha) as (s & Hs & Hid & _).
  destruct (Hwf _ _ _ Hb) as (s' & Hs' & Hid' & _). congruence.
Qed.

Lemma publish_one_cases e s s' b :
  publish_one e s (Some (s', b)) ->
  (b = true /\ s' = deliver s e /\ has_room (Channel s) = true /\ closed (Channel s) = false) \/
  (b = false /\ s' = s).
Proof. inversion 1; subst; [right|left|right]; auto. Qed.

Lemma publish_one_active_room e s s' b :
  cancelled s = false -> has_room (Channel s) = true ->
  publish_one e s (Some (s', b)) -> b = true /\ s' = deliver s e.
Proof. intros Hc Hr. inversion 1; subst; [congruence|done|congruence]. Qed.

Lemma publish_one_full e s s' b :
  has_room (Channel s) = false -> publish_one e s (Some (s', b)) -> s' = s /\ b = false.
Proof. intros Hr. inversion 1; subst; [done|congruence|done]. Qed.

Lemma publish_one_progress e s :
  closed (Channel s) = false -> exists s' b, publish_one e s (Some (s', b)) /\ closed (Channel s') = false.
Proof.
  intros Hcl. destruct (cancelled s) eqn:Hc.
  - exists s, false. split; [by constructor|done].
  - destruct (has_room (Channel s)) eqn:Hr.
    + exists (deliver s e), true. split; [by constructor|done].
    + exists s, false. split; [by constructor|done].
Qed.

Lemma publish_loop_frame e h es r :
  publish_loop e h es r -> forall h' n, r = Some (h', n) ->
  forall p, p ∉ es.*2 -> h' !! p = h !! p.
Proof.
  induction 1 as [h|h i p0 rest s s' b r Hs Hone Hloop IH|h i p0 rest s|h i p0 rest];
    intros h' n Hr p Hp; try discriminate.
  - by injection Hr as <-.
  - destruct r as [[h1 n1]|]; simpl in Hr; [|discriminate]. injection Hr as <- _.
    simpl in Hp. rewrite (IH h1 n1 eq_refl p) by set_solver.
    rewrite lookup_insert_ne; [done|set_solver].
Qed.

Lemma publish_loop_each e h es r :
  publish_loop e h es r -> forall h' n, r = Some (h', n) -> NoDup es.*2 ->
  forall p, p ∈ es.*2 -> exists s s' b,
    h !! p = Some s /\ h' !! p = Some s' /\ publish_one e s (Some (s', b)).
Proof.
  induction 1 as [h|h i p0 rest s s' b r Hs Hone Hloop IH|h i p0 rest s|h i p0 rest];
    intros h' n Hr Hnd p Hp; try discriminate.
  - simpl in Hp. set_solver.
  - destruct r as [[h1 n1]|] eqn:Er; simpl in Hr; [|discriminate]. injection Hr as <- _.
    simpl in Hnd, Hp. apply NoDup_cons in Hnd as [Hnin Hnd].
    destruct (decide (p = p0)) as [->|Hne].
    + exists s, s', b. split; [done|split; [|done]].
      rewrite (publish_loop_frame _ _ _ _ Hloop h1 n1 eq_refl p0 Hnin).
      apply lookup_insert_eq.
    + destruct (IH h1 n1 eq_refl Hnd p ltac:(set_solver)) as (s0 & s0' & b0 & H1 & H2 & H3).
      rewrite lookup_insert_ne in H1 by congruence. exists s0, s0', b0. auto.
Qed.

Lemma publish_loop_count e h es r :
  publish_loop e h es r -> forall h' n, r = Some (h', n) -> NoDup es.*2 ->
  n = length (List.filter (grew h h') es.*2).
Proof.
  induction 1 as [h|h i p0 rest s s' b r Hs Hone Hloop IH|h i p0 rest s|h i p0 rest];
    intros h' n Hr Hnd; try discriminate.
  - by injection Hr as _ <-.
  - destruct r as [[h1 n1]|] eqn:Er; simpl in Hr; [|discriminate]. injection Hr as <- <-.
    simpl in Hnd |- *. apply NoDup_cons in Hnd as [Hnin Hnd].
    rewrite (IH h1 n1 eq_refl Hnd).
    rewrite (List.filter_ext_in (grew (<[p0:=s']> h) h1) (grew h h1)).
    2: { intros q Hq. apply list_elem_of_In in Hq. unfold grew.
         rewrite lookup_insert_ne by (intros ->; contradiction). done. }
    assert (Hg : grew h h1 p0 = b).
    { unfold grew. rewrite Hs.
      rewrite (publish_loop_frame _ _ _ _ Hloop h1 n1 eq_refl p0 Hnin), lookup_insert_eq.
      destruct (publish_one_cases _ _ _ _ Hone) as [(-> & -> & _)|(-> & ->)].
      - simpl. rewrite length_app. simpl. apply Nat.eqb_eq. lia.
      - apply Nat.eqb_neq. lia. }
    rewrite Hg. by destruct b.
Qed.

Lemma publish_loop_progress e h es :
  (forall p, p ∈ es.*2 -> exists s, h !! p = Some s /\ closed (Channel s) = false) ->
  exists h' n, publish_loop e h es (Some (h', n)).
Proof.
  revert h. induction es as [|[i p] rest IH]; intros h Hopen.
  - exists h, 0. constructor.
  - destruct (Hopen p ltac:(simpl; set_solver)) as (s & Hs & Hcl).
    destruct (publish_one_progress e s Hcl) as (s' & b & Hone & Hcl').
    destruct (IH (<[p := s']> h)) as (h' & n & Hl).
    { intros q Hq. destruct (decide (q = p)) as [->|Hne].
      - exists s'. by rewrite lookup_insert_eq.
      - rewrite lookup_insert_ne by congruence. apply Hopen. simpl. set_solver. }
    exists h', ((if b then 1 else 0) + n).
    change (Some (h', (if b then 1 else 0) + n)) with
      ((fun '(h'', m) => (h'', (if b then 1 else 0) + m)) <$> Some (h', n)).
    eapply pl_step; eauto.
Qed.

Lemma publish_loop_no_panic e h es r :
  publish_loop e h es r -> r = None ->
  (forall p, p ∈ es.*2 -> exists s, h !! p = Some s /\ closed (Channel s) = false) -> False.
Proof.
  induction 1 as [h|h i p0 rest s s' b r Hs Hone Hloop IH|h i p0 rest s Hs Hone|h i p0 rest Hs];
    intros Hr Hopen; try discriminate.
  - destruct r as [[h1 n1]|]; simpl in Hr; [discriminate|]. apply IH; [done|].
    intros q Hq. destruct (decide (q = p0)) as [->|Hne].
    + rewrite lookup_insert_eq. exists s'. split; [done|].
      destruct (Hopen p0 ltac:(simpl; set_solver)) as (s0 & Hs0 & Hcl).
      rewrite Hs in Hs0. injection Hs0 as <-.
      destruct (publish_one_cases _ _ _ _ Hone) as [(_ & -> & _)|(_ & ->)]; done.
    + rewrite lookup_insert_ne by congruence. apply Hopen. simpl. set_solver.
  - destruct (Hopen p0 ltac:(simpl; set_solver)) as (s0 & Hs0 & Hcl).
    rewrite Hs in Hs0. injection Hs0 as <-. inversion Hone; congruence.
  - destruct (Hopen p0 ltac:(simpl; set_solver)) as (s0 & Hs0 & Hcl). congruence.
Qed.

Lemma wf_ptrs ps t : wf ps ->
  forall p, p ∈ (map_to_list (topic_subs ps t)).*2 ->
  exists s, heap ps !! p = Some s /\ closed (Channel s) = false.
Proof.
  intros [Hwf _] p Hp. apply list_elem_of_fmap_1 in Hp as [[i q] [Heq Hi]]. simpl in Heq. subst q.
  apply elem_of_map_to_list in Hi. destruct (Hwf _ _ _ Hi) as (s & Hs & _ & _ & Hcl). eauto.
Qed.

(** [Publish] on a well-formed bus never panics: it is one run of the
    delivery loop over the topic's entries. *)
Lemma Publish_loop ps topic (x : P) now res :
  wf ps -> Publish ps topic x now res ->
  exists h' n,
    res = Some (mkPubSub (subscribers ps) h' (next ps) (bufferSize ps), n) /\
    publish_loop (mkEvent topic x now) (heap ps) (map_to_list (topic_subs ps topic)) (Some (h', n)).
Proof.
  intros Hwf. unfold Publish. case_bool_decide as Hsz.
  - intros ->. exists (heap ps), 0. split; [by destruct ps|].
    apply map_size_empty_iff in Hsz. rewrite Hsz, map_to_list_empty. constructor.
  - intros (r & Hl & ->). destruct r as [[h' n]|].
    + exists h', n. split; done.
    + exfalso. eapply publish_loop_no_panic; [exact Hl|done|]. by apply wf_ptrs.
Qed.

Lemma wf_NewPubSub bs : wf (NewPubSub (P:=P) bs).
Proof.
  split.
  - intros t i p. unfold topic_subs. simpl. rewrite lookup_empty. simpl.
    rewrite lookup_empty. discriminate.
  - intros p _. simpl. apply lookup_empty.
Qed.

Lemma wf_Subscribe ps b id topics : wf ps -> wf (fst (Subscribe ps b id topics)).
Proof.
  intros [Hwf Hnext]. split.
  - intros t i p. unfold topic_subs. simpl. rewrite register_topics_lookup.
    case_bool_decide as Ht; simpl.
    + rewrite lookup_insert. case_decide as Hi.
      * subst i. intros [= <-]. eexists. rewrite lookup_insert_eq. repeat split; done.
      * intros Hp. destruct (Hwf t i p Hp) as (s & Hs & Hid & Htp & Hcl).
        exists s. rewrite lookup_insert_ne; [done|].
        intros <-. rewrite Hnext in Hs by lia. discriminate.
    + intros Hp. destruct (Hwf t i p Hp) as (s & Hs & Hid & Htp & Hcl).
      exists s. rewrite lookup_insert_ne; [done|].
      intros <-. rewrite Hnext in Hs by lia. discriminate.
  - intros p Hp. simpl in *. rewrite lookup_insert_ne by lia. apply Hnext. lia.
Qed.

Lemma wf_Unsubscribe ps p ps' : wf ps -> Unsubscribe ps p = Some ps' -> wf ps'.
Proof.
  intros [Hwf Hnext]. unfold Unsubscribe.
  destruct (heap ps !! p) as [sub|] eqn:Hp; [|discriminate].
  destruct (close (Channel sub)) as [ch|]; [|discriminate]. intros [= <-].
  split.
  - intros t i q. unfold topic_subs. simpl. rewrite unregister_topics_lookup.
    case_bool_decide as Ht.
    + destruct (subscribers ps !! t) as [m|] eqn:Hm; simpl; [|discriminate].
      case_bool_decide; simpl; [rewrite lookup_empty; discriminate|].
      intros Hq. rewrite lookup_delete in Hq. case_decide as Hi; [discriminate|].
      assert (Hq' : topic_subs ps t !! i = Some q) by (unfold topic_subs; rewrite Hm; exact Hq).
      destruct (Hwf t i q Hq') as (s & Hs & Hid & Htq & Hcl).
      exists s. rewrite lookup_insert_ne; [done|].
      intros ->. rewrite Hp in Hs. injection Hs as ->. congruence.
    + intros Hq. destruct (Hwf t i q Hq) as (s & Hs & Hid & Htq & Hcl).
      exists s. rewrite lookup_insert_ne; [done|].
      intros ->. rewrite Hp in Hs. injection Hs as ->. contradiction.
  - intros q Hq. simpl in Hq |- *. rewrite lookup_insert_ne; [by apply Hnext|].
    intros ->. rewrite Hnext in Hp by lia. discriminate.
Qed.

Lemma wf_Publish ps topic (x : P) now ps' n :
  wf ps -> Publish ps topic x now (Some (ps', n)) -> wf ps'.
Proof.
  intros Hwf Hpub. destruct (Publish_loop _ _ _ _ _ Hwf Hpub) as (h' & n' & Heq & Hl).
  injection Heq as -> _. pose proof (wf_nodup ps topic Hwf) as Hnd.
  destruct Hwf as [Hwf Hnext]. split.
  - intros t i q Hq. unfold topic_subs in Hq. simpl in Hq.
    destruct (Hwf t i q Hq) as (s & Hs & Hid & Htq & Hcl). simpl.
    destruct (decide (q ∈ (map_to_list (topic_subs ps topic)).*2)) as [Hin|Hnin].
    + destruct (publish_loop_each _ _ _ _ Hl h' n' eq_refl Hnd q Hin) as (s0 & s' & b & Hs0 & Hs' & Hone).
      rewrite Hs in Hs0. injection Hs0 as <-. exists s'. split; [done|].
      destruct (publish_one_cases _ _ _ _ Hone) as [(_ & -> & _)|(_ & ->)]; done.
    + exists s. rewrite (publish_loop_frame _ _ _ _ Hl h' n' eq_refl q Hnin). done.
  - intros q Hq. simpl in Hq |- *.
    destruct (decide (q ∈ (map_to_list (topic_subs ps topic)).*2)) as [Hin|Hnin].
    + destruct (publish_loop_each _ _ _ _ Hl h' n' eq_refl Hnd q Hin) as (s0 & s' & b & Hs0 & _).
      rewrite Hnext in Hs0 by lia. discriminate.
    + rewrite (publish_loop_frame _ _ _ _ Hl h' n' eq_refl q Hnin). by apply Hnext.
Qed.

Lemma Publish_progress ps topic (x : P) now :
  wf ps -> exists ps' n, Publish ps topic x now (Some (ps', n)).
Proof.
  intros Hwf. unfold Publish. case_bool_decide.
  - by exists ps, 0.
  - destruct (publish_loop_progress (mkEvent topic x now) (heap ps) (map_to_list (topic_subs ps topic)))
      as (h' & n & Hl); [by apply wf_ptrs|].
    exists (mkPubSub (subscribers ps) h' (next ps) (bufferSize ps)), n, (Some (h', n)). by split.
Qed.

(** What one [Publish] does on a well-formed bus: the registry is
    untouched, subscribers of other topics are untouched, each subscriber
    of the topic either receives the event or is left as it was (active
    with room: receives; full: left), and the count is the number of
    queues that grew. *)
Lemma publish_outcome ps topic (x : P) now res :
  wf ps -> Publish ps topic x now res ->
  let e := mkEvent topic x now in
  let ptrs := (map_to_list (topic_subs ps topic)).*2 in
  exists ps' n, res = Some (ps', n) /\
    subscribers ps' = subscribers ps /\ next ps' = next ps /\ bufferSize ps' = bufferSize ps /\
    (forall p, p ∉ ptrs -> heap ps' !! p = heap ps !! p) /\
    (forall p s, p ∈ ptrs -> heap ps !! p = Some s ->
       exists s', heap ps' !! p = Some s' /\ (s' = s \/ s' = deliver s e) /\
         (cancelled s = false -> has_room (Channel s) = true -> s' = deliver s e) /\
         (has_room (Channel s) = false -> s' = s)) /\
    n = length (List.filter (grew (heap ps) (heap ps')) ptrs) /\
    (size (topic_subs ps topic) = 0 -> n = 0 /\ ps' = ps).
Proof.
  intros Hwf Hpub e ptrs.
  destruct (Publish_loop _ _ _ _ _ Hwf Hpub) as (h' & n & -> & Hl).
  pose proof (wf_nodup ps topic Hwf) as Hnd.
  exists (mkPubSub (subscribers ps) h' (next ps) (bufferSize ps)), n.
  split; [done|]. do 3 (split; [done|]).
  split; [intros p Hp; exact (publish_loop_frame _ _ _ _ Hl h' n eq_refl p Hp)|].
  split; [|split].
  - intros p s Hp Hs.
    destruct (publish_loop_each _ _ _ _ Hl h' n eq_refl Hnd p Hp) as (s0 & s' & b & Hs0 & Hs' & Hone).
    rewrite Hs in Hs0. injection Hs0 as <-. exists s'. split; [done|]. split; [|split].
    + destruct (publish_one_cases _ _ _ _ Hone) as [(_ & -> & _)|(_ & ->)]; auto.
    + intros Hc Hr. by destruct (publish_one_active_room _ _ _ _ Hc Hr Hone).
    + intros Hr. by destruct (publish_one_full _ _ _ _ Hr Hone).
  - exact (publish_loop_count _ _ _ _ Hl h' n eq_refl Hnd).
  - intros Hsz. apply map_size_empty_iff in Hsz. unfold ptrs in *.
    rewrite Hsz, map_to_list_empty in Hl. inversion Hl; subst. split; [done|]. by destruct ps.
Qed.

(** A topic with no subscriber: [Publish] returns 0 and changes nothing. *)
Lemma publish_empty_topic ps topic (x : P) now res :
  topic_subs ps topic = ∅ -> Publish ps topic x now res -> res = Some (ps, 0).
Proof.
  intros He. unfold Publish. cbv zeta. rewrite He.
  rewrite bool_decide_true by apply map_size_empty. done.
Qed.

End Facts.

End PubSubFacts.

Module PubSubClaims.
Import Channel HubFacts PubSubFacts Examples Stated.

Lemma s1_scenario_holds : s1_scenario.
Proof.
  assert (Hwf1 : wf bus1) by (apply wf_Subscribe, wf_NewPubSub).
  split.
  - destruct (Publish_progress bus1 "a" 7 0 Hwf1) as (ps' & n & H). eauto.
  - intros r Hr.
    destruct (publish_outcome _ _ _ _ _ Hwf1 Hr)
      as (ps2 & n & -> & Hsubs & _ & _ & _ & Heach & Hcount & _).
    assert (Hptrs : (map_to_list (topic_subs bus1 "a")).*2 = [0]) by (vm_compute; reflexivity).
    assert (Hh0 : heap bus1 !! 0 = Some (mkSubscriber "s1" ["a"; "b"] (mkChan [] 100 false) false))
      by (vm_compute; reflexivity).
    destruct (Heach 0 _ ltac:(rewrite Hptrs; set_solver) Hh0) as (s' & Hs' & _ & Hdel & _).
    specialize (Hdel eq_refl eq_refl). subst s'.
    rewrite Hptrs in Hcount. cbn [List.filter] in Hcount. unfold grew in Hcount.
    rewrite Hh0, Hs' in Hcount. simpl in Hcount. subst n.
    exists ps2. split; [done|]. split.
    + intros r' Hr'. eapply publish_empty_topic; [|exact Hr'].
      unfold topic_subs. rewrite Hsubs. vm_compute. reflexivity.
    + change sub1 with 0. unfold Unsubscribe. rewrite Hs'. simpl.
      eexists. split; [reflexivity|].
      intros r'' Hr''. eapply publish_empty_topic; [|exact Hr''].
      unfold topic_subs. simpl. rewrite Hsubs. vm_compute. reflexivity.
Qed.

(** C2: [Publish] delivers to every subscriber of the topic whose context
    is live and whose queue has room, leaves skipped (cancelled or full)
    subscribers as they were, returns the number of subscribers whose
    queue received the event, returns 0 on a topic with no subscriber;
    and the end-to-end scenario of the spec holds. *)
Theorem publish_delivers_and_counts {P} (ps : PubSub P) (topic : string) (x : P) (now : Z) res :
  wf ps -> Publish ps topic x now res ->
  (let e := mkEvent topic x now in
   let ptrs := (map_to_list (topic_subs ps topic)).*2 in
   exists ps' n, res = Some (ps', n) /\
     (forall p s, p ∈ ptrs -> heap ps !! p = Some s ->
        exists s', heap ps' !! p = Some s' /\ (s' = s \/ s' = deliver s e) /\
          (cancelled s = false -> has_room (Channel s) = true -> s' = deliver s e)) /\
     n = length (List.filter (grew (heap ps) (heap ps')) ptrs) /\
     (size (topic_subs ps topic) = 0 -> n = 0)) /\
  s1_scenario.
Proof.
  intros Hwf Hpub. split; [|exact s1_scenario_holds].
  destruct (publish_outcome _ _ _ _ _ Hwf Hpub)
    as (ps' & n & -> & _ & _ & _ & _ & Heach & Hcount & Hzero).
  exists ps', n. split; [done|]. split; [|split; [done|]].
  - intros p s Hp Hs. destruct (Heach p s Hp Hs) as (s' & H1 & H2 & H3 & _). eauto.
  - intros Hsz. by destruct (Hzero Hsz).
Qed.

Lemma publish_delivers_and_counts_witness :
  exists res, wf bus1 /\ Publish bus1 "a" 7 0 res /\
  (let e := mkEvent "a" 7 0 in
   let ptrs := (map_to_list (topic_subs bus1 "a")).*2 in
   exists ps' n, res = Some (ps', n) /\
     (forall p s, p ∈ ptrs -> heap bus1 !! p = Some s ->
        exists s', heap ps' !! p = Some s' /\ (s' = s \/ s' = deliver s e) /\
          (cancelled s = false -> has_room (Channel s) = true -> s' = deliver s e)) /\
     n = length (List.filter (grew (heap bus1) (heap ps')) ptrs) /\
     (size (topic_subs bus1 "a") = 0 -> n = 0)) /\
  s1_scenario.
Proof.
  assert (Hwf1 : wf bus1) by (apply wf_Subscribe, wf_NewPubSub).
  destruct (Publish_progress bus1 "a" 7 0 Hwf1) as (ps' & n & Hp).
  exists (Some (ps', n)). split; [exact Hwf1|]. split; [exact Hp|].
  exact (publish_delivers_and_counts bus1 "a" 7 0 (Some (ps', n)) Hwf1 Hp).
Defined.

(** C1: a delivery to a full queue is dropped for that recipient only.
    For the Hub's [broadcastMessage], every recipient's queue gets the
    drop-on-full send of the same data independently of the others, the
    bound is kept, a full queue is unchanged, and the call always
    completes when no queue is closed. For the bus's [Publish], every
    subscriber's queue keeps its bound, a full one is unchanged, an
    active one of the topic with room receives the event whatever
    happens to the others, and [Publish] always completes. *)
Theorem full_queue_drops {P} (encode : Websocket.Message -> option Websocket.Bytes)
    (h h' : Websocket.Hub) (m : Websocket.Message)
    (ps ps' : PubSub P) (topic : string) (x : P) (now : Z) (n : nat) :
  Websocket.broadcastMessage encode h m = Some h' ->
  wf ps -> Publish ps topic x now (Some (ps', n)) ->
  (exists d (cs : gset nat), forall c,
     (c ∈ cs -> Websocket.send h' c = offer (Websocket.send h c) d) /\
     (c ∉ cs -> Websocket.send h' c = Websocket.send h c)) /\
  (forall c, length (buf (Websocket.send h c)) <= cap (Websocket.send h c) ->
     length (buf (Websocket.send h' c)) <= cap (Websocket.send h' c)) /\
  (forall c, has_room (Websocket.send h c) = false -> Websocket.send h' c = Websocket.send h c) /\
  (forall m', (forall c, closed (Websocket.send h c) = false) ->
     exists h'', Websocket.broadcastMessage encode h m' = Some h'') /\
  (forall p s, heap ps !! p = Some s -> exists s', heap ps' !! p = Some s' /\
     (length (buf (Channel s)) <= cap (Channel s) -> length (buf (Channel s')) <= cap (Channel s')) /\
     (has_room (Channel s) = false -> s' = s) /\
     (p ∈ (map_to_list (topic_subs ps topic)).*2 -> cancelled s = false ->
        has_room (Channel s) = true -> s' = deliver s (mkEvent topic x now))) /\
  (forall topic' (x' : P) now', exists ps'' n', Publish ps topic' x' now' (Some (ps'', n'))).
Proof.
  intros Hb Hwf Hpub.
  assert (Hchar : exists d (cs : gset nat), forall c,
     (c ∈ cs -> Websocket.send h' c = offer (Websocket.send h c) d) /\
     (c ∉ cs -> Websocket.send h' c = Websocket.send h c)).
  { destruct (broadcastMessage_shape _ _ _ _ Hb) as [->|(cs & d & Hnd & Hd)].
    - exists [], ∅. intros c. split; [set_solver|done].
    - destruct (deliver_all_spec _ _ _ _ Hnd Hd) as (_ & _ & _ & E).
      exists d, (list_to_set cs). intros c. rewrite E. split; intros Hc.
      + rewrite bool_decide_true; [done|]. by apply elem_of_list_to_set in Hc.
      + rewrite bool_decide_false; [done|]. intros Hin. apply Hc. by apply elem_of_list_to_set. }
  split; [exact Hchar|].
  split; [|split; [|split; [|split]]].
  - intros c Hle. destruct Hchar as (d & cs & Hc). destruct (decide (c ∈ cs)) as [Hin|Hnin].
    + rewrite (proj1 (Hc c) Hin). by apply offer_bound.
    + by rewrite (proj2 (Hc c) Hnin).
  - intros c Hfull. destruct Hchar as (d & cs & Hc). destruct (decide (c ∈ cs)) as [Hin|Hnin].
    + rewrite (proj1 (Hc c) Hin). by apply offer_full.
    + by rewrite (proj2 (Hc c) Hnin).
  - intros m' Hopen. unfold Websocket.broadcastMessage.
    destruct (encode m'); [|eauto].
    case_bool_decide; [destruct (Websocket.rooms h !! Websocket.Room m')|];
      try (apply deliver_all_progress; intros c _; apply Hopen); eauto.
  - intros p s Hs.
    destruct (publish_outcome _ _ _ _ _ Hwf Hpub)
      as (ps2 & n2 & Heq & _ & _ & _ & Hframe & Heach & _ & _).
    injection Heq as <- <-.
    destruct (decide (p ∈ (map_to_list (topic_subs ps topic)).*2)) as [Hin|Hnin].
    + destruct (Heach p s Hin Hs) as (s' & Hs' & Hor & Hdel & Hfull).
      exists s'. split; [done|]. split; [|split; [done|intros _; exact Hdel]].
      intros Hle. destruct (has_room (Channel s)) eqn:Hr.
      * destruct Hor as [ -> | -> ]; [done|]. simpl. unfold has_room in Hr.
        apply Nat.ltb_lt in Hr. rewrite length_app. simpl. lia.
      * by rewrite (Hfull eq_refl).
    + exists s. rewrite Hframe by done. split; [done|]. split; [done|]. split; [done|].
      intros Hin. contradiction.
  - intros topic' x' now'. by apply Publish_progress.
Qed.

Lemma busf1_reached : Publish busf0 "a" 7 0 (Some (busf1, 1)).
Proof.
  unfold Publish. cbv zeta. rewrite bool_decide_false by (vm_compute; lia).
  exists (Some (<[0 := sub_full]> (heap busf0), 1)). split; [|reflexivity].
  assert (E : map_to_list (topic_subs busf0 "a") = [("s1", 0)]) by (vm_compute; reflexivity).
  rewrite E.
  change (Some (<[0 := sub_full]> (heap busf0), 1)) with
    ((fun '(h', n) => (h', (if true then 1 else 0) + n)) <$>
       Some (<[0 := sub_full]> (heap busf0), 0)).
  apply (pl_step _ _ "s1" 0 [] (mkSubscriber "s1" ["a"; "b"] (mkChan [] 1 false) false)
           sub_full true (Some (<[0 := sub_full]> (heap busf0), 0))).
  - vm_compute. reflexivity.
  - apply (sel_send _ (mkSubscriber "s1" ["a"; "b"] (mkChan [] 1 false) false)); reflexivity.
  - apply pl_nil.
Qed.

Lemma full_queue_drops_witness :
  has_room (Websocket.send hub_full 2) = false /\
  heap busf1 !! 0 = Some sub_full /\ has_room (Channel sub_full) = false /\
  0 ∈ (map_to_list (topic_subs busf1 "a")).*2 /\
  exists h' ps' n,
    Websocket.broadcastMessage enc0 hub_full msg0 = Some h' /\ wf busf1 /\
    Publish busf1 "a" 8 1 (Some (ps', n)) /\
  (exists d (cs : gset nat), forall c,
     (c ∈ cs -> Websocket.send h' c = offer (Websocket.send hub_full c) d) /\
     (c ∉ cs -> Websocket.send h' c = Websocket.send hub_full c)) /\
  (forall c, length (buf (Websocket.send hub_full c)) <= cap (Websocket.send hub_full c) ->
     length (buf (Websocket.send h' c)) <= cap (Websocket.send h' c)) /\
  (forall c, has_room (Websocket.send hub_full c) = false -> Websocket.send h' c = Websocket.send hub_full c) /\
  (forall m', (forall c, closed (Websocket.send hub_full c) = false) ->
     exists h'', Websocket.broadcastMessage enc0 hub_full m' = Some h'') /\
  (forall p s, heap busf1 !! p = Some s -> exists s', heap ps' !! p = Some s' /\
     (length (buf (Channel s)) <= cap (Channel s) -> length (buf (Channel s')) <= cap (Channel s')) /\
     (has_room (Channel s) = false -> s' = s) /\
     (p ∈ (map_to_list (topic_subs busf1 "a")).*2 -> cancelled s = false ->
        has_room (Channel s) = true -> s' = deliver s (mkEvent "a" 8 1))) /\
  (forall topic' (x' : nat) now', exists ps'' n', Publish busf1 topic' x' now' (Some (ps'', n'))).
Proof.
  split; [reflexivity|]. split; [reflexivity|]. split; [reflexivity|].
  split; [vm_compute; left|].
  assert (Hwf1 : wf busf1)
    by (apply (wf_Publish busf0 "a" 7 0 busf1 1); [apply wf_Subscribe, wf_NewPubSub|apply busf1_reached]).
  destruct (Publish_progress busf1 "a" 8 1 Hwf1) as (ps' & n & Hp).
  exists (default hub_full (Websocket.broadcastMessage enc0 hub_full msg0)), ps', n.
  assert (Hb : Websocket.broadcastMessage enc0 hub_full msg0 =
               Some (default hub_full (Websocket.broadcastMessage enc0 hub_full msg0)))
    by (vm_compute; reflexivity).
  split; [exact Hb|]. split; [exact Hwf1|]. split; [exact Hp|].
  exact (full_queue_drops enc0 hub_full _ msg0 busf1 ps' "a" 8 1 n Hb Hwf1 Hp).
Defined.

(** C4 fails on a second [Unsubscribe] of the same subscriber: its
    channel is already closed, and [close(sub.Channel)] panics. *)
Lemma unsubscribe_twice_panics :
  exists ps2, Unsubscribe bus1 sub1 = Some ps2 /\ Unsubscribe ps2 sub1 = None.
Proof.
  exists (default bus1 (Unsubscribe bus1 sub1)).
  split; vm_compute; reflexivity.
Qed.

(** C10: subscribing a new subscriber under an id already registered for
    topic [t] replaces the old entry: the count of [t] does not change, the
    old subscriber is no longer among [t]'s entries and a [Publish] on [t]
    leaves it untouched, and unsubscribing the old subscriber removes the
    new one's entry under every topic both hold. *)
Theorem subscribe_same_id_replaces {P} (ps : PubSub P) (b : bool) (id : string)
    (topics : list string) (t : string) (pold : nat) (sold : Subscriber P) :
  wf ps -> topic_subs ps t !! id = Some pold -> t ∈ topics -> heap ps !! pold = Some sold ->
  let ps' := fst (Subscribe ps b id topics) in
  let pnew := snd (Subscribe ps b id topics) in
  pnew <> pold /\
  topic_subs ps' t !! id = Some pnew /\
  GetSubscriberCount ps' t = GetSubscriberCount ps t /\
  (pold ∉ (map_to_list (topic_subs ps' t)).*2) /\
  (forall x now ps'' n, Publish ps' t x now (Some (ps'', n)) -> heap ps'' !! pold = heap ps' !! pold) /\
  (forall ps'', Unsubscribe ps' pold = Some ps'' ->
     forall t', t' ∈ Topics sold -> t' ∈ topics ->
       topic_subs ps' t' !! id = Some pnew /\ topic_subs ps'' t' !! id = None).
Proof.
  intros Hwf Hold Ht Hsold ps' pnew.
  pose proof Hwf as [Hw Hn].
  destruct (Hw t id pold Hold) as (s & Hs & Hid & _ & Hcl).
  rewrite Hsold in Hs. injection Hs as <-.
  assert (Hlt : pold <> next ps) by (intros ->; rewrite Hn in Hsold by lia; discriminate).
  assert (Hsubs' : forall t', t' ∈ topics -> topic_subs ps' t' = <[id := pnew]> (topic_subs ps t')).
  { intros t' Ht'. unfold ps', pnew, topic_subs. simpl. rewrite register_topics_lookup.
    by rewrite bool_decide_true. }
  assert (Hwf' : wf ps') by (apply wf_Subscribe, Hwf).
  assert (Hnot : pold ∉ (map_to_list (topic_subs ps' t)).*2).
  { intros Hin. apply list_elem_of_fmap_1 in Hin as [[i q] [Heq Hi]]. simpl in Heq. subst q.
    apply elem_of_map_to_list in Hi. rewrite Hsubs' in Hi by done.
    rewrite lookup_insert in Hi. case_decide as Hi'.
    - injection Hi as Hi. apply Hlt. rewrite <- Hi. reflexivity.
    - destruct (Hw t i pold Hi) as (s2 & Hs2 & Hid2 & _). rewrite Hsold in Hs2.
      injection Hs2 as <-. congruence. }
  split; [intros Heq; apply Hlt; rewrite <- Heq; reflexivity|].
  split; [rewrite Hsubs' by done; apply lookup_insert_eq|].
  split; [unfold GetSubscriberCount; rewrite Hsubs' by done; by apply map_size_insert_Some|].
  split; [exact Hnot|].
  split.
  - intros x now ps'' n Hp.
    destruct (publish_outcome _ _ _ _ _ Hwf' Hp) as (ps3 & n3 & Heq & _ & _ & _ & Hframe & _).
    injection Heq as <- <-. by apply Hframe.
  - intros ps'' Hun t' Ht' Ht''. split; [rewrite Hsubs' by done; apply lookup_insert_eq|].
    unfold Unsubscribe in Hun.
    assert (Hh : heap ps' !! pold = Some sold).
    { unfold ps'. simpl. rewrite lookup_insert_ne; [done|]. intros Heq. apply Hlt. by rewrite Heq. }
    rewrite Hh in Hun. unfold close in Hun. rewrite Hcl in Hun. injection Hun as <-.
    unfold topic_subs. simpl. rewrite unregister_topics_lookup, bool_decide_true by done.
    rewrite Hid. match goal with |- context [drop_id id ?o] => destruct o as [mm|] end;
      simpl; [|apply lookup_empty].
    case_bool_decide; simpl; [apply lookup_empty|apply lookup_delete_eq].
Qed.

Lemma subscribe_same_id_replaces_witness :
  let ps := fst (Subscribe bus0 false "w" ["a"]) in
  wf ps /\ topic_subs ps "a" !! "w" = Some 0 /\ "a" ∈ ["a"; "b"] /\
  heap ps !! 0 = Some (mkSubscriber "w" ["a"] (mkChan [] 100 false) false) /\
  (let ps' := fst (Subscribe ps false "w" ["a"; "b"]) in
   let pnew := snd (Subscribe ps false "w" ["a"; "b"]) in
   pnew <> 0 /\
   topic_subs ps' "a" !! "w" = Some pnew /\
   GetSubscriberCount ps' "a" = GetSubscriberCount ps "a" /\
   (0 ∉ (map_to_list (topic_subs ps' "a")).*2) /\
   (forall x now ps'' n, Publish ps' "a" x now (Some (ps'', n)) -> heap ps'' !! 0 = heap ps' !! 0) /\
   (forall ps'', Unsubscribe ps' 0 = Some ps'' ->
      forall t', t' ∈ ["a"] -> t' ∈ ["a"; "b"] ->
        topic_subs ps' t' !! "w" = Some pnew /\ topic_subs ps'' t' !! "w" = None)).
Proof.
  intros ps.
  assert (Hwf : wf ps) by (apply wf_Subscribe, wf_NewPubSub).
  assert (H1 : topic_subs ps "a" !! "w" = Some 0) by (vm_compute; reflexivity).
  assert (H2 : "a" ∈ ["a"; "b"]) by set_solver.
  assert (H3 : heap ps !! 0 = Some (mkSubscriber "w" ["a"] (mkChan [] 100 false) false))
    by (vm_compute; reflexivity).
  split; [exact Hwf|]. split; [exact H1|]. split; [exact H2|]. split; [exact H3|].
  exact (subscribe_same_id_replaces ps false "w" ["a"; "b"] "a" 0 _ Hwf H1 H2 H3).
Defined.

(** Closing every channel of a list of open channels closes them all. *)
Lemma close_all_closes {A} (chs chs' : list (Chan A)) :
  close_all chs = Some chs' -> Forall (fun ch => closed ch = true) chs'.
Proof.
  revert chs'. induction chs as [|ch rest IH]; intros chs' Hc; simpl in Hc.
  - injection Hc as <-. constructor.
  - unfold close in Hc. destruct (closed ch); [discriminate|].
    destruct (close_all rest) as [rest'|] eqn:Hr; simpl in Hc; [|discriminate].
    injection Hc as <-. constructor; [done|]. by apply IH.
Qed.

(** Closing a list of open channels succeeds. *)
Lemma close_all_progress {A} (chs : list (Chan A)) :
  Forall (fun ch => closed ch = false) chs -> exists chs', close_all chs = Some chs'.
Proof.
  induction 1 as [|ch rest Hch _ [rest' Hr]]; simpl; [eauto|].
  unfold close. rewrite Hch, Hr. simpl. eauto.
Qed.

(** Once the context is done, [Fanout.run] may take the cancellation
    branch, which closes every output. *)
Lemma fanout_done_closes_outputs {P} (f : Fanout P) :
  fdone f = true -> fexited f = false -> Forall (fun ch => closed ch = false) (foutputs f) ->
  exists f', fanout_step f (Some f') /\ fexited f' = true /\
    Forall (fun ch => closed ch = true) (foutputs f').
Proof.
  intros Hd Hx Hop. destruct (close_all_progress _ Hop) as [outs Hc].
  exists (mkFanout (finput f) outs (fdone f) true). split; [|split; [done|]].
  - pose proof (fs_done f Hx Hd) as Hs. rewrite Hc in Hs. exact Hs.
  - simpl. by apply (close_all_closes _ _ Hc).
Qed.

(** Both exits of the [Pipeline] goroutine close the output and the
    error channel. *)
Lemma pipeline_exit_closes_outputs {P} (p p' : Pipeline P) :
  pipeline_step p (Some p') -> pexited p' = true ->
  closed (poutput p') = true /\ closed (perrors p') = true.
Proof.
  intros Hs Hx. inversion Hs; subst; simpl in *; try discriminate;
    unfold close_outputs, close in *;
    destruct (closed (poutput p)), (closed (perrors p)); try discriminate;
    match goal with H : Some _ = Some _ |- _ => injection H as <- end; simpl; auto.
Qed.

(** C8 fails for [Fanout]: when the producer closes the input while the
    context is live, the goroutine of [Fanout.run] exits on [!ok] and
    leaves its output open, with no step left that would close it; the
    [Pipeline] in the same situation closes both its channels. *)
Lemma fanout_input_close_leaves_outputs_open :
  fanout_close_input fanout1 = Some fanout1_closed /\
  (exists f', fanout_step fanout1_closed (Some f')) /\
  (forall r, fanout_step fanout1_closed r -> exists f', r = Some f' /\ fexited f' = true /\
     foutputs f' <> [] /\ Forall (fun ch => closed ch = false) (foutputs f') /\
     forall r', ~ fanout_step f' r') /\
  ~ fanout_exit_closes_outputs fanout1_closed /\
  (forall r, pipeline_step pipeline1_closed r ->
     exists p', r = Some p' /\ pexited p' = true /\ closed (poutput p') = true /\ closed (perrors p') = true).
Proof.
  assert (E : fanout1_closed = mkFanout (mkChan [] 1 true) [mkChan [] 1 false] false false)
    by reflexivity.
  assert (Hstep : fanout_step fanout1_closed
            (Some (mkFanout (mkChan [] 1 true) [mkChan [] 1 false] false true)))
    by (rewrite E; by apply (fs_input_closed (mkFanout (mkChan [] 1 true) [mkChan [] 1 false] false false))).
  assert (Hall : forall r, fanout_step fanout1_closed r ->
            r = Some (mkFanout (mkChan [] 1 true) [mkChan [] 1 false] false true)).
  { intros r Hr. rewrite E in Hr. inversion Hr; subst; simpl in *; try discriminate. reflexivity. }
  split; [reflexivity|]. split; [eauto|]. split; [|split].
  - intros r Hr. rewrite (Hall r Hr). eexists. split; [reflexivity|]. simpl.
    split; [done|]. split; [done|]. split; [repeat constructor|].
    intros r' Hr'. inversion Hr'; simpl in *; discriminate.
  - intros Hcl. specialize (Hcl _ Hstep eq_refl). simpl in Hcl.
    apply Forall_inv in Hcl. simpl in Hcl. discriminate.
  - intros r Hr. inversion Hr; subst; simpl in *; try discriminate.
    eexists. split; [vm_compute; reflexivity|]. simpl. auto.
Qed.

End PubSubClaims.

(** * Message objects *)

Module MessageClaims.
Import Websocket WebsocketMore WebsocketHeap Channel PubSubFacts Examples.



End MessageClaims.

(** * Properties of the rest of the Hub *)

Module HubMoreFacts.
Import Websocket HubFacts WebsocketMore.

(** The three mutations keep the two membership records in agreement. *)
Lemma mutations_consistent (h : Hub) (c : nat) (r : string) :
  consistent h ->
  consistent (addClientToRoom h c r) /\
  consistent (removeClientFromRoom h c r) /\
  (forall h', unregisterClient h c = Some h' -> consistent h').
Proof.
  intros Hcons. split; [|split].
  - intros c0 r0 Hc0. simpl in Hc0. rewrite in_room_add, crooms_add.
    specialize (Hcons c0 r0 Hc0).
    destruct (Nat.eqb_spec c0 c) as [->|Hne].
    + rewrite elem_of_union, elem_of_singleton. intuition congruence.
    + intuition congruence.
  - destruct (rooms h !! r) as [cs|] eqn:Hr.
    + intros c0 r0 Hc0. simpl in Hc0.
      assert (Hc0' : c0 ∈ clients h) by (unfold removeClientFromRoom in Hc0; rewrite Hr in Hc0; exact Hc0).
      rewrite (in_room_remove_some h c r cs) by done.
      specialize (Hcons c0 r0 Hc0'). unfold removeClientFromRoom. rewrite Hr. simpl.
      destruct (Nat.eq_dec c0 c) as [->|Hne].
      * rewrite upd_eq, elem_of_difference, elem_of_singleton. intuition congruence.
      * rewrite upd_ne by done. intuition congruence.
    + unfold removeClientFromRoom. by rewrite Hr.
  - intros h'. unfold unregisterClient. case_bool_decide as Hc.
    + destruct (close (send h c)) as [ch|]; [|discriminate]. intros [= <-].
      intros c0 r0 Hc0. simpl in Hc0. unfold in_room at 1. simpl.
      rewrite in_room_prune. apply elem_of_difference in Hc0 as [Hc0 Hne].
      rewrite elem_of_singleton in Hne. specialize (Hcons c0 r0 Hc0). tauto.
    + intros [= <-]. done.
Qed.

(** A broadcast changes only the contents of queues, never whether they
    are closed. *)
Lemma broadcast_frame encode h m h' :
  broadcastMessage encode h m = Some h' ->
  clients h' = clients h /\ rooms h' = rooms h /\ crooms h' = crooms h /\
  forall c, closed (send h' c) = closed (send h c).
Proof.
  intros Hb. destruct (broadcastMessage_shape _ _ _ _ Hb) as [->|(cs & d & Hnd & Hd)]; [done|].
  destruct (deliver_all_spec _ _ _ _ Hnd Hd) as (E1 & E2 & E3 & E4).
  split; [done|]. split; [done|]. split; [done|].
  intros c. rewrite E4. case_bool_decide; [apply offer_closed|done].
Qed.

Lemma hub_inv_NewHub send0 : hub_inv (NewHub send0).
Proof.
  split; [|split; [|split]]; simpl.
  - set_solver.
  - intros r cs Hr. by rewrite lookup_empty in Hr.
  - intros c r Hc. set_solver.
  - done.
Qed.

Lemma hub_inv_not_in_room h r c : hub_inv h -> c ∉ clients h -> ~ in_room h r c.
Proof.
  intros (_ & Hrooms & _) Hc Hin. unfold in_room in Hin.
  destruct (rooms h !! r) as [cs|] eqn:Hr; [|done].
  destruct (Hrooms r cs Hr) as [_ Hsub]. set_solver.
Qed.

Lemma hub_inv_step encode h req h' :
  hub_inv h -> req_allowed h req -> run_request encode h req = Some h' -> hub_inv h'.
Proof.
  intros Hinv Hal Hrun. pose proof Hinv as (Hopen & Hrooms & Hcons & Hfresh).
  destruct req as [c|c|c r|c r|m]; simpl in Hal, Hrun.
  - (* register *)
    injection Hrun as <-. split; [|split; [|split]]; simpl.
    + intros c0 Hc0. apply elem_of_union in Hc0 as [Hc0|Hc0].
      * apply elem_of_singleton in Hc0 as ->. done.
      * by apply Hopen.
    + intros r cs Hr. destruct (Hrooms r cs Hr). set_solver.
    + intros c0 r0 Hc0. apply elem_of_union in Hc0 as [Hc0|Hc0].
      * apply elem_of_singleton in Hc0 as ->.
        destruct (decide (c ∈ clients h)) as [Hin|Hnin]; [by apply Hcons|].
        unfold in_room. simpl. rewrite (Hfresh c Hnin Hal).
        pose proof (hub_inv_not_in_room h r0 c Hinv Hnin) as Hn. unfold in_room in Hn.
        split; [intros; contradiction|set_solver].
      * by apply Hcons.
    + intros c0 Hc0. apply Hfresh. set_solver.
  - (* unregister *)
    pose proof Hrun as Hrun'. unfold unregisterClient in Hrun. case_bool_decide as Hc; [|by injection Hrun as <-].
    destruct (close (send h c)) as [ch|] eqn:Hcl; [|discriminate].
    assert (Hch : closed ch = true) by (unfold close in Hcl; destruct (closed (send h c)); [discriminate|]; by injection Hcl as <-).
    injection Hrun as <-. split; [|split; [|split]]; simpl.
    + intros c0 Hc0. apply elem_of_difference in Hc0 as [Hc0 Hne].
      rewrite upd_ne by set_solver. by apply Hopen.
    + intros r cs Hr. rewrite lookup_omap in Hr.
      destruct (rooms h !! r) as [cs0|] eqn:Hr0; simpl in Hr; [|discriminate].
      destruct (Hrooms r cs0 Hr0) as [Hne Hsub].
      unfold prune in Hr. case_bool_decide as Hin.
      * case_bool_decide as He; [discriminate|]. injection Hr as <-. split; [done|]. set_solver.
      * injection Hr as <-. split; [done|]. set_solver.
    + exact (proj2 (proj2 (mutations_consistent h c "" Hcons)) _ Hrun').
    + intros c0 Hc0 Hop. destruct (Nat.eq_dec c0 c) as [->|Hne].
      * rewrite upd_eq in Hop. congruence.
      * rewrite upd_ne in Hop by done. apply Hfresh; [set_solver|done].
  - (* join *)
    injection Hrun as <-. split; [|split; [|split]]; simpl.
    + done.
    + intros r0 cs Hr0. rewrite lookup_insert in Hr0. case_decide as E.
      * subst r0. injection Hr0 as <-. split; [set_solver|].
        destruct (rooms h !! r) as [cs0|] eqn:Hr; simpl; [|set_solver].
        destruct (Hrooms r cs0 Hr). set_solver.
      * by eapply Hrooms.
    + exact (proj1 (mutations_consistent h c r Hcons)).
    + intros c0 Hc0 Hop. unfold upd. destruct (Nat.eqb_spec c0 c) as [->|Hne]; [contradiction|].
      by apply Hfresh.
  - (* leave *)
    pose proof (proj1 (proj2 (mutations_consistent h c r Hcons))) as Hcons'.
    injection Hrun as <-. unfold removeClientFromRoom in *.
    destruct (rooms h !! r) as [cs0|] eqn:Hr; [|done].
    destruct (Hrooms r cs0 Hr) as [Hne0 Hsub0].
    split; [|split; [|split]]; simpl.
    + done.
    + intros r0 cs Hr0. case_bool_decide as He.
      * rewrite lookup_delete in Hr0. case_decide; [discriminate|]. by eapply Hrooms.
      * rewrite lookup_insert in Hr0. case_decide as E.
        -- subst r0. injection Hr0 as <-. split; [done|]. set_solver.
        -- by eapply Hrooms.
    + exact Hcons'.
    + intros c0 Hc0 Hop. destruct (Nat.eq_dec c0 c) as [->|Hne].
      * rewrite upd_eq, (Hfresh c Hc0 Hop). set_solver.
      * rewrite upd_ne by done. by apply Hfresh.
  - (* broadcast *)
    destruct (broadcast_frame _ _ _ _ Hrun) as (E1 & E2 & E3 & E4).
    split; [|split; [|split]].
    + intros c. rewrite E1, E4. apply Hopen.
    + intros r cs. rewrite E2, E1. apply Hrooms.
    + intros c r. unfold in_room. rewrite E1, E2, E3. apply Hcons.
    + intros c. rewrite E1, E3, E4. apply Hfresh.
Qed.

Lemma hub_inv_progress encode h req :
  hub_inv h -> exists h', run_request encode h req = Some h'.
Proof.
  intros (Hopen & Hrooms & _ & _). destruct req as [c|c|c r|c r|m]; simpl; eauto.
  - unfold unregisterClient. case_bool_decide as Hc; [|eauto].
    unfold close. rewrite (Hopen c Hc). eauto.
  - unfold broadcastMessage. destruct (encode m) as [data|]; [|eauto].
    case_bool_decide.
    + destruct (rooms h !! Room m) as [cs|] eqn:Hr; [|eauto].
      apply deliver_all_progress. intros c Hc. apply elem_of_elements in Hc.
      apply Hopen. destruct (Hrooms _ _ Hr) as [_ Hsub]. set_solver.
    + apply deliver_all_progress. intros c Hc. apply elem_of_elements in Hc. by apply Hopen.
Qed.

Lemma hub_reach_inv encode send0 h : hub_reach encode send0 h -> hub_inv h.
Proof.
  induction 1 as [|h req h' _ IH Hal Hrun].
  - apply hub_inv_NewHub.
  - exact (hub_inv_step _ _ _ _ IH Hal Hrun).
Qed.

End HubMoreFacts.

Module HubMoreProps.
Import Websocket HubFacts WebsocketMore HubMoreFacts Examples.

(** From [NewHub], every state [Hub.Run] reaches, when clients are
    registered as new objects and join rooms while registered, keeps the
    invariant: registered clients have open queues, every room is
    non-empty and holds registered clients only, the membership records
    agree, and a new client has no room. From such a state no request
    makes the Hub panic. *)
Theorem hub_run_safe encode send0 h :
  hub_reach encode send0 h ->
  hub_inv h /\ forall req, exists h', run_request encode h req = Some h'.
Proof.
  intros Hr. pose proof (hub_reach_inv _ _ _ Hr) as Hinv.
  split; [exact Hinv|]. intros req. by apply hub_inv_progress.
Qed.

Lemma hub_run_safe_witness :
  let send0 := fun _ : nat => open_chan in
  let h := addClientToRoom (registerClient (NewHub send0) 1) 1 "chat" in
  hub_reach enc0 send0 h /\
  (hub_inv h /\ forall req, exists h', run_request enc0 h req = Some h').
Proof.
  intros send0 h.
  assert (Hr : hub_reach enc0 send0 h).
  { apply (reach_step _ _ (registerClient (NewHub send0) 1) (JoinReq 1 "chat")).
    - apply (reach_step _ _ (NewHub send0) (RegisterReq 1)).
      + apply reach_new.
      + reflexivity.
      + reflexivity.
    - unfold req_allowed. simpl. set_solver.
    - reflexivity. }
  split; [exact Hr|]. exact (hub_run_safe enc0 send0 h Hr).
Defined.

(** On every reachable Hub state, [GetRoomClients(room)] is 0 exactly
    when the room is absent from the registry, never exceeds
    [GetConnectedClients()], and counts registered clients only. *)
Theorem room_clients_reachable encode send0 h (r : string) :
  hub_reach encode send0 h ->
  (GetRoomClients h r = 0 <-> rooms h !! r = None) /\
  GetRoomClients h r <= GetConnectedClients h /\
  (forall c, in_room h r c -> c ∈ clients h).
Proof.
  intros Hreach. destruct (hub_reach_inv _ _ _ Hreach) as (_ & Hrooms & _ & _).
  unfold GetRoomClients, GetConnectedClients, in_room.
  destruct (rooms h !! r) as [cs|] eqn:Hr.
  - destruct (Hrooms r cs Hr) as [Hne Hsub]. split; [|split].
    + split; [|discriminate]. intros H0. exfalso. apply Hne.
      apply leibniz_equiv. by apply size_empty_inv.
    + by apply subseteq_size.
    + set_solver.
  - split; [done|]. split; [lia|done].
Qed.

Lemma room_clients_reachable_witness :
  let send0 := fun _ : nat => open_chan in
  let h := addClientToRoom (registerClient (NewHub send0) 1) 1 "chat" in
  hub_reach enc0 send0 h /\
  ((GetRoomClients h "chat" = 0 <-> rooms h !! "chat" = None) /\
   GetRoomClients h "chat" <= GetConnectedClients h /\
   (forall c, in_room h "chat" c -> c ∈ clients h)).
Proof.
  intros send0 h.
  assert (Hr : hub_reach enc0 send0 h).
  { apply (reach_step _ _ (registerClient (NewHub send0) 1) (JoinReq 1 "chat")).
    - apply (reach_step _ _ (NewHub send0) (RegisterReq 1)).
      + apply reach_new.
      + reflexivity.
      + reflexivity.
    - unfold req_allowed. simpl. set_solver.
    - reflexivity. }
  split; [exact Hr|]. exact (room_clients_reachable enc0 send0 h "chat" Hr).
Defined.

(** [BroadcastToUser(u, m)] offers the encoded message, with the
    drop-on-full [select], to exactly the registered clients whose
    [UserID] is [u], and leaves every other queue and the registries
    unchanged; when encoding fails nothing changes. It completes when the
    registered clients' queues are open. *)
Theorem broadcast_to_user_targets encode (userID : nat -> string) h u m :
  (forall c, c ∈ clients h -> closed (send h c) = false) ->
  exists h', BroadcastToUser encode userID h u m = Some h' /\
    clients h' = clients h /\ rooms h' = rooms h /\ crooms h' = crooms h /\
    forall c, send h' c =
      match encode m with
      | Some data => if bool_decide (c ∈ clients h /\ userID c = u) then offer (send h c) data
                     else send h c
      | None => send h c
      end.
Proof.
  intros Hopen. unfold BroadcastToUser. destruct (encode m) as [data|]; [|by exists h].
  set (cs := filter (fun c => userID c = u) (elements (clients h))).
  assert (Hcs : forall c, c ∈ cs <-> c ∈ clients h /\ userID c = u).
  { intros c. unfold cs. rewrite list_elem_of_filter, elem_of_elements. tauto. }
  destruct (deliver_all_progress cs data h) as [h' Hd].
  { intros c Hc. apply Hcs in Hc as [Hc _]. by apply Hopen. }
  assert (Hnd : NoDup cs) by (apply NoDup_filter, NoDup_elements).
  destruct (deliver_all_spec _ _ _ _ Hnd Hd) as (E1 & E2 & E3 & E4).
  exists h'. split; [done|]. split; [done|]. split; [done|]. split; [done|].
  intros c. rewrite E4. by rewrite (bool_decide_ext _ _ (Hcs c)).
Qed.

Lemma broadcast_to_user_targets_witness :
  (forall c, c ∈ clients hub0 -> closed (send hub0 c) = false) /\
  exists h', BroadcastToUser enc0 (fun c => if c =? 2 then "bob" else "alice") hub0 "bob" msg0 = Some h' /\
    clients h' = clients hub0 /\ rooms h' = rooms hub0 /\ crooms h' = crooms hub0 /\
    forall c, send h' c =
      match enc0 msg0 with
      | Some data => if bool_decide (c ∈ clients hub0 /\ (if c =? 2 then "bob" else "alice") = "bob")
                     then offer (send hub0 c) data else send hub0 c
      | None => send hub0 c
      end.
Proof.
  assert (Hop : forall c, c ∈ clients hub0 -> closed (send hub0 c) = false) by (intros; reflexivity).
  split; [exact Hop|].
  exact (broadcast_to_user_targets enc0 (fun c => if c =? 2 then "bob" else "alice") hub0 "bob" msg0 Hop).
Defined.

(** [Client.Send(m)] leaves the client's queue exactly as the Hub's
    drop-on-full delivery would: the data is enqueued when there is room
    and the call returns nil; otherwise the queue is unchanged and it
    returns [ErrBufferFull]; an encoding error changes nothing. The queue
    never exceeds its bound. On a closed queue an encodable message makes
    it panic. *)
Theorem client_send_spec encode (ch : Chan Bytes) (m : Message) :
  (closed ch = true -> encode m <> None -> ClientSend encode ch m = None) /\
  (closed ch = false -> exists ch' err, ClientSend encode ch m = Some (ch', err) /\
     (length (buf ch) <= cap ch -> length (buf ch') <= cap ch') /\
     match encode m with
     | None => ch' = ch /\ err = Some EncodeError
     | Some data => ch' = offer ch data /\
         (err = None <-> has_room ch = true) /\ (err = Some ErrBufferFull <-> has_room ch = false)
     end).
Proof.
  unfold ClientSend. split.
  - intros Hc He. destruct (encode m); [|congruence]. by rewrite Hc.
  - intros Hc. destruct (encode m) as [data|].
    + rewrite Hc. destruct (has_room ch) eqn:Hr.
      * exists (enqueue ch data), None. split; [done|]. split.
        -- intros _. unfold has_room in Hr. apply Nat.ltb_lt in Hr. simpl.
           rewrite length_app. simpl. lia.
        -- unfold offer. rewrite Hr. split; [done|]. split; split; congruence.
      * exists ch, (Some ErrBufferFull). split; [done|]. split; [done|].
        unfold offer. rewrite Hr. split; [done|]. split; split; congruence.
    + exists ch, (Some EncodeError). done.
Qed.

(** [Client.handleMessage] issues join and leave requests only for a
    non-empty room name and only for messages of those types; it queues a
    message for broadcast unchanged, and only for type ["broadcast"] or
    for type ["room"] with a non-empty [Room]; so a client's message is
    sent to every client only when its type is ["broadcast"]. A ["ping"]
    is answered with the encoded ["pong"] on the client's own queue. *)
Theorem handle_message_requests encode (decodeRoom : Bytes -> option string) (m : Message) :
  match handleMessage encode decodeRoom m with
  | ActJoin r => Type_ m = "join" /\ r <> ""
  | ActLeave r => Type_ m = "leave" /\ r <> ""
  | ActBroadcast m' => m' = m /\ (Type_ m = "broadcast" \/ (Type_ m = "room" /\ Room m <> ""))
  | ActSendSelf d => Type_ m = "ping" /\ encode (mkMessage "pong" "" []) = Some d
  | ActNone => True
  end.
Proof.
  unfold handleMessage.
  destruct (String.eqb_spec (Type_ m) "join") as [Hj|Hj].
  { destruct (decodeRoom (Payload m)) as [r|]; [|done].
    destruct (String.eqb_spec r "") as [->|Hr]; done. }
  destruct (String.eqb_spec (Type_ m) "leave") as [Hl|Hl].
  { destruct (decodeRoom (Payload m)) as [r|]; [|done].
    destruct (String.eqb_spec r "") as [->|Hr]; done. }
  destruct (String.eqb_spec (Type_ m) "broadcast") as [Hb|Hb]; [auto|].
  destruct (String.eqb_spec (Type_ m) "room") as [Hr|Hr].
  { destruct (String.eqb_spec (Room m) "") as [He|He]; [done|].
    split; [by destruct m|auto]. }
  destruct (String.eqb_spec (Type_ m) "ping") as [Hp|Hp]; [|done].
  destruct (encode (mkMessage "pong" "" [])); done.
Qed.

End HubMoreProps.

(** * Properties of the rest of the bus *)

Module PubSubMoreFacts.
Import Channel ChannelMore HubFacts PubSubFacts.

Section MoreFacts.

Context {P : Type}.

Lemma topic_subs_Subscribe (ps : PubSub P) b id topics t :
  topic_subs (fst (Subscribe ps b id topics)) t =
  if bool_decide (t ∈ topics) then <[id := next ps]> (topic_subs ps t) else topic_subs ps t.
Proof.
  unfold topic_subs. simpl. rewrite register_topics_lookup. by case_bool_decide.
Qed.

Lemma default_drop_id id (o : option (gmap string nat)) :
  default ∅ (drop_id id o) = delete id (default ∅ o).
Proof.
  destruct o as [m|]; simpl; [|by rewrite delete_empty].
  case_bool_decide as He; simpl; [by rewrite He|done].
Qed.

Lemma topic_subs_unregister (ps : PubSub P) id ts t :
  default ∅ (unregister_topics id ts (subscribers ps) !! t) =
  if bool_decide (t ∈ ts) then delete id (topic_subs ps t) else topic_subs ps t.
Proof.
  rewrite unregister_topics_lookup. case_bool_decide; [apply default_drop_id|done].
Qed.

(** Unsubscribing a live subscriber: it succeeds, removes its id from
    its topics, leaves no entry pointing to it, closes and cancels it, and
    no later [Publish] touches it; a second [Unsubscribe] panics. *)
Lemma unsubscribe_live (ps : PubSub P) p s :
  wf ps -> heap ps !! p = Some s -> closed (Channel s) = false ->
  exists ps', Unsubscribe ps p = Some ps' /\ wf ps' /\
    subscribers ps' = unregister_topics (ID s) (Topics s) (subscribers ps) /\
    (forall t, topic_subs ps' t =
       if bool_decide (t ∈ Topics s) then delete (ID s) (topic_subs ps t) else topic_subs ps t) /\
    (forall t, p ∉ (map_to_list (topic_subs ps' t)).*2) /\
    heap ps' !! p = Some (mkSubscriber (ID s) (Topics s)
                           (mkChan (buf (Channel s)) (cap (Channel s)) true) true) /\
    (forall topic x now ps'' n, Publish ps' topic x now (Some (ps'', n)) ->
       heap ps'' !! p = heap ps' !! p) /\
    Unsubscribe ps' p = None.
Proof.
  intros Hwf Hs Hcl.
  set (ps' := mkPubSub (unregister_topics (ID s) (Topics s) (subscribers ps))
                (<[p := mkSubscriber (ID s) (Topics s) (mkChan (buf (Channel s)) (cap (Channel s)) true) true]>
                   (heap ps)) (next ps) (bufferSize ps)).
  assert (Hun : Unsubscribe ps p = Some ps') by (unfold Unsubscribe, close; by rewrite Hs, Hcl).
  assert (Hwf' : wf ps') by exact (wf_Unsubscribe _ _ _ Hwf Hun).
  assert (Hts : forall t, topic_subs ps' t =
       if bool_decide (t ∈ Topics s) then delete (ID s) (topic_subs ps t) else topic_subs ps t)
    by (intros t; apply topic_subs_unregister).
  assert (Hnot : forall t, p ∉ (map_to_list (topic_subs ps' t)).*2).
  { intros t Hin. apply list_elem_of_fmap_1 in Hin as [[i q] [Heq Hi]]. simpl in Heq. subst q.
    apply elem_of_map_to_list in Hi. rewrite Hts in Hi.
    destruct Hwf as [Hw _].
    case_bool_decide as Ht.
    - rewrite lookup_delete in Hi. case_decide as Hid; [discriminate|].
      destruct (Hw t i p Hi) as (s2 & Hs2 & Hid2 & _). rewrite Hs in Hs2. injection Hs2 as <-. congruence.
    - destruct (Hw t i p Hi) as (s2 & Hs2 & _ & Ht2 & _). rewrite Hs in Hs2. injection Hs2 as <-. contradiction. }
  exists ps'. split; [done|]. split; [done|]. split; [done|]. split; [done|]. split; [done|].
  split; [simpl; apply lookup_insert_eq|]. split.
  - intros topic x now ps'' n Hp.
    destruct (publish_outcome _ _ _ _ _ Hwf' Hp) as (ps3 & n3 & Heq & _ & _ & _ & Hframe & _).
    injection Heq as <- <-. by apply Hframe.
  - unfold Unsubscribe. simpl. rewrite lookup_insert_eq. reflexivity.
Qed.

Lemma no_empty_NewPubSub bs : no_empty_topics (NewPubSub (P:=P) bs).
Proof. intros t m Hm. simpl in Hm. by rewrite lookup_empty in Hm. Qed.

Lemma no_empty_Subscribe (ps : PubSub P) b id topics :
  no_empty_topics ps -> no_empty_topics (fst (Subscribe ps b id topics)).
Proof.
  intros Hne t m Hm. simpl in Hm. rewrite register_topics_lookup in Hm.
  case_bool_decide.
  - injection Hm as <-. apply insert_non_empty.
  - by apply (Hne t).
Qed.

Lemma no_empty_Unsubscribe (ps : PubSub P) p ps' :
  no_empty_topics ps -> Unsubscribe ps p = Some ps' -> no_empty_topics ps'.
Proof.
  intros Hne. unfold Unsubscribe.
  destruct (heap ps !! p) as [sub|]; [|discriminate].
  destruct (close (Channel sub)); [|discriminate]. intros [= <-].
  intros t m Hm. simpl in Hm. rewrite unregister_topics_lookup in Hm.
  case_bool_decide.
  - destruct (subscribers ps !! t) as [m0|]; simpl in Hm; [|discriminate].
    case_bool_decide as He; [discriminate|]. by injection Hm as <-.
  - by apply (Hne t).
Qed.

(** The invariants of the reachable bus states. *)
Definition bus_inv (ps : PubSub P) : Prop :=
  wf ps /\ no_empty_topics ps /\ 0 < bufferSize ps /\
  forall p s, heap ps !! p = Some s ->
    cap (Channel s) = bufferSize ps /\ length (buf (Channel s)) <= cap (Channel s).

Lemma bus_reach_inv bs (ps : PubSub P) : bus_reach bs ps -> bus_inv ps.
Proof.
  induction 1 as [|ps b id topics _ IH|ps p ps' _ IH Hun|ps topic x now ps' n _ IH Hpub].
  - split; [apply wf_NewPubSub|]. split; [apply no_empty_NewPubSub|]. split.
    + simpl. destruct (bs <=? 0)%Z eqn:Hb; [lia|]. apply Z.leb_gt in Hb. lia.
    + intros p s Hs. simpl in Hs. by rewrite lookup_empty in Hs.
  - destruct IH as (Hwf & Hne & Hbs & Hcap). split; [by apply wf_Subscribe|].
    split; [by apply no_empty_Subscribe|]. split; [done|].
    intros q s Hs. simpl in Hs |- *. rewrite lookup_insert in Hs. case_decide.
    + injection Hs as <-. simpl. lia.
    + by eapply Hcap.
  - destruct IH as (Hwf & Hne & Hbs & Hcap). split; [exact (wf_Unsubscribe _ _ _ Hwf Hun)|].
    split; [exact (no_empty_Unsubscribe _ _ _ Hne Hun)|].
    unfold Unsubscribe in Hun. destruct (heap ps !! p) as [sub|] eqn:Hp; [|discriminate].
    destruct (close (Channel sub)) as [ch|] eqn:Hc; [|discriminate]. injection Hun as <-.
    split; [done|]. intros q s Hs. simpl in Hs |- *. rewrite lookup_insert in Hs. case_decide.
    + subst q. injection Hs as <-. simpl. unfold close in Hc.
      destruct (closed (Channel sub)); [discriminate|]. injection Hc as <-. simpl. by eapply Hcap.
    + by eapply Hcap.
  - destruct IH as (Hwf & Hne & Hbs & Hcap).
    destruct (publish_outcome _ _ _ _ _ Hwf Hpub)
      as (ps2 & n2 & Heq & Hsubs & Hnext & Hbsz & Hframe & Heach & _ & _).
    injection Heq as <- <-. split; [exact (wf_Publish _ _ _ _ _ _ Hwf Hpub)|].
    split; [intros t m; rewrite Hsubs; apply Hne|]. rewrite Hbsz. split; [done|].
    intros q s' Hs'.
    destruct (decide (q ∈ (map_to_list (topic_subs ps topic)).*2)) as [Hin|Hnin].
    + destruct (heap ps !! q) as [s|] eqn:Hs.
      * destruct (Heach q s Hin Hs) as (s2 & Hs2 & Hor & _ & Hfull). rewrite Hs2 in Hs'.
        injection Hs' as <-. destruct (Hcap q s Hs) as [Hc Hb].
        destruct (has_room (Channel s)) eqn:Hr.
        -- destruct Hor as [ -> | -> ]; [done|]. simpl. split; [done|].
           unfold has_room in Hr. apply Nat.ltb_lt in Hr. rewrite length_app. simpl. lia.
        -- rewrite (Hfull eq_refl). done.
      * exfalso. destruct (wf_ptrs ps topic Hwf q Hin) as [s0 [Hs0 _]]. congruence.
    + rewrite Hframe in Hs' by done. by eapply Hcap.
Qed.

Lemma send_all_open {A} (chs : list (Chan A)) x :
  Forall (fun ch => closed ch = false) chs -> send_all chs x = Some (map (fun ch => offer ch x) chs).
Proof.
  induction 1 as [|ch rest Hch _ IH]; simpl; [done|].
  unfold try_send. rewrite Hch, IH. reflexivity.
Qed.

Lemma run_stages_app (s1 s2 : list (Event P -> Event P + string)) e :
  run_stages (s1 ++ s2) e =
  match run_stages s1 e with inl e' => run_stages s2 e' | inr err => inr err end.
Proof.
  revert e. induction s1 as [|st s1 IH]; intros e; simpl; [done|].
  destruct (st e); [apply IH|done].
Qed.

End MoreFacts.

End PubSubMoreFacts.

Module PubSubMoreProps.
Import Channel ChannelMore HubFacts PubSubFacts PubSubMoreFacts Examples.

(** On every bus state reachable from [NewPubSub(bs)] by [Subscribe],
    [Unsubscribe] and [Publish]: the registry invariant [wf] holds, the
    buffer size is positive, every subscriber's queue has that capacity
    and holds at most that many events, and [GetTopics()] lists each topic
    once, exactly the topics with a positive [GetSubscriberCount]. *)
Theorem bus_reachable {P} (bs : Z) (ps : PubSub P) :
  bus_reach bs ps ->
  wf ps /\ 0 < bufferSize ps /\
  (forall p s, heap ps !! p = Some s ->
     cap (Channel s) = bufferSize ps /\ length (buf (Channel s)) <= cap (Channel s)) /\
  (forall t, t ∈ GetTopics ps <-> 0 < GetSubscriberCount ps t) /\
  NoDup (GetTopics ps).
Proof.
  intros Hr. destruct (bus_reach_inv bs ps Hr) as (Hwf & Hne & Hbs & Hcap).
  split; [done|]. split; [done|]. split; [done|]. split.
  - intros t. unfold GetTopics, GetSubscriberCount, topic_subs.
    rewrite list_elem_of_fmap. split.
    + intros [[t' m] [Heq Hin]]. simpl in Heq. subst t'. apply elem_of_map_to_list in Hin.
      rewrite Hin. simpl. pose proof (Hne t m Hin) as Hm.
      apply map_size_non_empty_iff in Hm. lia.
    + destruct (subscribers ps !! t) as [m|] eqn:Hm; simpl.
      * intros _. exists (t, m). split; [done|]. by apply elem_of_map_to_list.
      * rewrite map_size_empty. lia.
  - apply NoDup_fst_map_to_list.
Qed.

Lemma bus_reachable_witness :
  let ps := fst (Subscribe bus1 false "s2" ["b"; "c"]) in
  bus_reach 0 ps /\
  (wf ps /\ 0 < bufferSize ps /\
   (forall p s, heap ps !! p = Some s ->
      cap (Channel s) = bufferSize ps /\ length (buf (Channel s)) <= cap (Channel s)) /\
   (forall t, t ∈ GetTopics ps <-> 0 < GetSubscriberCount ps t) /\
   NoDup (GetTopics ps)).
Proof.
  intros ps.
  assert (Hr : bus_reach 0 ps) by (apply br_subscribe, br_subscribe, br_new).
  split; [exact Hr|]. exact (bus_reachable 0 ps Hr).
Defined.

(** [Subscribe(ctx, id, topics...)] raises [GetSubscriberCount(t)] by one
    for each listed topic [t] under which [id] was not registered, leaves
    it unchanged for a listed topic under which [id] was registered
    (the entry is overwritten), and for every other topic. *)
Theorem subscribe_counts {P} (ps : PubSub P) b id topics t :
  GetSubscriberCount (fst (Subscribe ps b id topics)) t =
  if bool_decide (t ∈ topics) then
    (if bool_decide (topic_subs ps t !! id = None) then S (GetSubscriberCount ps t)
     else GetSubscriberCount ps t)
  else GetSubscriberCount ps t.
Proof.
  unfold GetSubscriberCount. rewrite topic_subs_Subscribe.
  case_bool_decide; [|done]. rewrite map_size_insert.
  case_bool_decide as Hn; [by rewrite Hn|].
  destruct (topic_subs ps t !! id); [done|congruence].
Qed.

(** Subscribing a fresh id and then unsubscribing the new subscriber
    restores the registry exactly (topics it created are deleted again),
    so every [GetSubscriberCount] and [GetTopics] is as before. *)
Theorem subscribe_unsubscribe_roundtrip {P} (ps : PubSub P) b id topics :
  no_empty_topics ps -> (forall t, t ∈ topics -> topic_subs ps t !! id = None) ->
  exists ps', Unsubscribe (fst (Subscribe ps b id topics)) (snd (Subscribe ps b id topics)) = Some ps' /\
    subscribers ps' = subscribers ps /\
    (forall t, GetSubscriberCount ps' t = GetSubscriberCount ps t) /\
    GetTopics ps' = GetTopics ps.
Proof.
  intros Hne Hfresh.
  eexists. split; [unfold Unsubscribe; simpl; rewrite lookup_insert_eq; reflexivity|].
  assert (Hs : unregister_topics id topics (register_topics id (next ps) topics (subscribers ps))
               = subscribers ps).
  { apply map_eq. intros t. rewrite unregister_topics_lookup, register_topics_lookup.
    case_bool_decide as Ht; [|done]. simpl.
    specialize (Hfresh t Ht). unfold topic_subs in Hfresh.
    rewrite delete_insert_id by done.
    destruct (subscribers ps !! t) as [m|] eqn:Hm; simpl.
    - rewrite bool_decide_false by exact (Hne t m Hm). done.
    - rewrite bool_decide_true by done. done. }
  simpl. split; [exact Hs|]. split.
  - intros t. unfold GetSubscriberCount, topic_subs. simpl. by rewrite Hs.
  - unfold GetTopics. simpl. by rewrite Hs.
Qed.

Lemma subscribe_unsubscribe_roundtrip_witness :
  no_empty_topics bus1 /\ (forall t, t ∈ ["b"; "c"] -> topic_subs bus1 t !! "s2" = None) /\
  exists ps', Unsubscribe (fst (Subscribe bus1 false "s2" ["b"; "c"]))
                          (snd (Subscribe bus1 false "s2" ["b"; "c"])) = Some ps' /\
    subscribers ps' = subscribers bus1 /\
    (forall t, GetSubscriberCount ps' t = GetSubscriberCount bus1 t) /\
    GetTopics ps' = GetTopics bus1.
Proof.
  assert (Hne : no_empty_topics bus1) by (apply no_empty_Subscribe, no_empty_NewPubSub).
  assert (Hf : forall t, t ∈ ["b"; "c"] -> topic_subs bus1 t !! "s2" = None).
  { intros t Ht. apply list_elem_of_In in Ht. simpl in Ht.
    destruct Ht as [<-|[<-|[]]]; vm_compute; reflexivity. }
  split; [exact Hne|]. split; [exact Hf|].
  exact (subscribe_unsubscribe_roundtrip bus1 false "s2" ["b"; "c"] Hne Hf).
Defined.

(** [Unsubscribe(sub)] of a live subscriber succeeds; it deletes the
    subscriber's id under each of its topics (so each such count drops by
    one when the id was registered there) and changes no other topic; no
    registry entry points to the subscriber afterwards, its queue is
    closed with its content kept and its context cancelled, no later
    [Publish] touches it, and a second [Unsubscribe] of it panics. *)
Theorem unsubscribe_effect {P} (ps : PubSub P) p s :
  wf ps -> heap ps !! p = Some s -> closed (Channel s) = false ->
  exists ps', Unsubscribe ps p = Some ps' /\ wf ps' /\
    (forall t, topic_subs ps' t =
       if bool_decide (t ∈ Topics s) then delete (ID s) (topic_subs ps t) else topic_subs ps t) /\
    (forall t, GetSubscriberCount ps' t =
       if bool_decide (t ∈ Topics s /\ is_Some (topic_subs ps t !! ID s))
       then pred (GetSubscriberCount ps t) else GetSubscriberCount ps t) /\
    (forall t, p ∉ (map_to_list (topic_subs ps' t)).*2) /\
    heap ps' !! p = Some (mkSubscriber (ID s) (Topics s)
                           (mkChan (buf (Channel s)) (cap (Channel s)) true) true) /\
    (forall topic x now ps'' n, Publish ps' topic x now (Some (ps'', n)) ->
       heap ps'' !! p = heap ps' !! p) /\
    Unsubscribe ps' p = None.
Proof.
  intros Hwf Hs Hcl.
  destruct (unsubscribe_live ps p s Hwf Hs Hcl) as (ps' & Hun & Hwf' & _ & Hts & Hnot & Hh & Hpub & Htwice).
  exists ps'. split; [done|]. split; [done|]. split; [done|]. split; [|done].
  intros t. unfold GetSubscriberCount. rewrite Hts.
  destruct (decide (t ∈ Topics s)) as [Ht|Ht].
  - rewrite (bool_decide_true (t ∈ Topics s)) by done. rewrite map_size_delete.
    destruct (topic_subs ps t !! ID s) eqn:Hi.
    + rewrite bool_decide_true by (split; [done|by eexists]). done.
    + rewrite bool_decide_false by (intros [_ [? ?]]; congruence). done.
  - rewrite bool_decide_false by done. rewrite bool_decide_false by tauto. done.
Qed.

Lemma unsubscribe_effect_witness :
  wf bus1 /\ heap bus1 !! sub1 = Some (mkSubscriber "s1" ["a"; "b"] (mkChan [] 100 false) false) /\
  closed (Channel (mkSubscriber (P:=nat) "s1" ["a"; "b"] (mkChan [] 100 false) false)) = false /\
  let s := mkSubscriber (P:=nat) "s1" ["a"; "b"] (mkChan [] 100 false) false in
  exists ps', Unsubscribe bus1 sub1 = Some ps' /\ wf ps' /\
    (forall t, topic_subs ps' t =
       if bool_decide (t ∈ Topics s) then delete (ID s) (topic_subs bus1 t) else topic_subs bus1 t) /\
    (forall t, GetSubscriberCount ps' t =
       if bool_decide (t ∈ Topics s /\ is_Some (topic_subs bus1 t !! ID s))
       then pred (GetSubscriberCount bus1 t) else GetSubscriberCount bus1 t) /\
    (forall t, sub1 ∉ (map_to_list (topic_subs ps' t)).*2) /\
    heap ps' !! sub1 = Some (mkSubscriber (ID s) (Topics s)
                           (mkChan (buf (Channel s)) (cap (Channel s)) true) true) /\
    (forall topic x now ps'' n, Publish ps' topic x now (Some (ps'', n)) ->
       heap ps'' !! sub1 = heap ps' !! sub1) /\
    Unsubscribe ps' sub1 = None.
Proof.
  assert (Hwf : wf bus1) by (apply wf_Subscribe, wf_NewPubSub).
  assert (Hs : heap bus1 !! sub1 = Some (mkSubscriber "s1" ["a"; "b"] (mkChan [] 100 false) false))
    by (vm_compute; reflexivity).
  assert (Hc : closed (Channel (mkSubscriber (P:=nat) "s1" ["a"; "b"] (mkChan [] 100 false) false)) = false)
    by reflexivity.
  split; [exact Hwf|]. split; [exact Hs|]. split; [exact Hc|].
  exact (unsubscribe_effect bus1 sub1 _ Hwf Hs Hc).
Defined.

(** Two [WorkerPool]s on the same topic subscribe under the same id
    ["worker-pool-" + topic]: stopping the first one deletes the second
    one's registry entry, while the second pool's queue stays open, so no
    later [Publish] on the topic reaches the still running second pool. *)
Theorem worker_pools_same_topic {P} (ps : PubSub P) (t : string) (n1 n2 : Z) (b1 b2 : bool) :
  wf ps ->
  let '(ps1, wp1) := WP_Start ps b1 (NewWorkerPool t n1) in
  let '(ps2, wp2) := WP_Start ps1 b2 (NewWorkerPool t n2) in
  exists ps3 p2 s2, WP_Stop ps2 wp1 = Some ps3 /\ wp_sub wp2 = Some p2 /\
    heap ps3 !! p2 = Some s2 /\ closed (Channel s2) = false /\
    topic_subs ps3 t !! ("worker-pool-" ++ t)%string = None /\
    (forall x now ps4 n, Publish ps3 t x now (Some (ps4, n)) -> heap ps4 !! p2 = heap ps3 !! p2).
Proof.
  intros Hwf. simpl.
  set (id := ("worker-pool-" ++ t)%string).
  set (ps1 := fst (Subscribe ps b1 id [t])).
  set (ps2 := fst (Subscribe ps1 b2 id [t])).
  assert (Hwf2 : wf ps2) by (apply wf_Subscribe, wf_Subscribe, Hwf).
  assert (Hh1 : heap ps2 !! next ps = Some (mkSubscriber id [t] (mkChan [] (bufferSize ps) false) b1)).
  { unfold ps2, ps1. simpl. rewrite lookup_insert_ne by lia. apply lookup_insert_eq. }
  destruct (unsubscribe_live ps2 (next ps) _ Hwf2 Hh1 eq_refl)
    as (ps3 & Hun & Hwf3 & _ & Hts & _ & _ & _ & _).
  exists ps3, (S (next ps)), (mkSubscriber id [t] (mkChan [] (bufferSize ps) false) b2).
  assert (Ht3 : topic_subs ps3 t !! id = None).
  { rewrite Hts. simpl. rewrite bool_decide_true by set_solver. apply lookup_delete_eq. }
  split; [exact Hun|]. split; [reflexivity|].
  split.
  { unfold Unsubscribe in Hun. rewrite Hh1 in Hun. simpl in Hun. injection Hun as <-. simpl.
    rewrite lookup_insert_ne by lia. unfold ps2. simpl. apply lookup_insert_eq. }
  split; [reflexivity|]. split; [exact Ht3|].
  intros x now ps4 n Hp.
  destruct (publish_outcome _ _ _ _ _ Hwf3 Hp) as (ps5 & n5 & Heq & _ & _ & _ & Hframe & _).
  injection Heq as <- <-. apply Hframe.
  intros Hin. apply list_elem_of_fmap_1 in Hin as [[i q] [Heq Hi]]. simpl in Heq. subst q.
  apply elem_of_map_to_list in Hi. destruct Hwf3 as [Hw _].
  destruct (Hw t i _ Hi) as (s & Hs & Hid & _).
  unfold Unsubscribe in Hun. rewrite Hh1 in Hun. simpl in Hun. injection Hun as <-.
  simpl in Hs. rewrite lookup_insert_ne in Hs by lia.
  unfold ps2 in Hs. simpl in Hs. rewrite lookup_insert_eq in Hs. injection Hs as <-.
  simpl in Hid. subst i. congruence.
Qed.

Lemma worker_pools_same_topic_witness :
  wf bus0 /\
  let '(ps1, wp1) := WP_Start bus0 false (NewWorkerPool "jobs" 2) in
  let '(ps2, wp2) := WP_Start ps1 false (NewWorkerPool "jobs" 3) in
  exists ps3 p2 s2, WP_Stop ps2 wp1 = Some ps3 /\ wp_sub wp2 = Some p2 /\
    heap ps3 !! p2 = Some s2 /\ closed (Channel s2) = false /\
    topic_subs ps3 "jobs" !! ("worker-pool-" ++ "jobs")%string = None /\
    (forall x now ps4 n, Publish ps3 "jobs" x now (Some (ps4, n)) -> heap ps4 !! p2 = heap ps3 !! p2).
Proof.
  assert (Hwf : wf bus0) by apply wf_NewPubSub.
  split; [exact Hwf|].
  exact (worker_pools_same_topic bus0 "jobs" 2 3 false false Hwf).
Defined.

(** While its context is live and its input holds an event, the only
    step of [Fanout.run] takes the first event off the input and offers
    it, with the drop-on-full [select], to every output: outputs with room
    receive it, full ones are unchanged. *)
Theorem fanout_forwards {P} (f : Fanout P) e rest :
  fexited f = false -> fdone f = false -> buf (finput f) = e :: rest ->
  Forall (fun ch => closed ch = false) (foutputs f) ->
  forall r, fanout_step f r <->
    r = Some (mkFanout (mkChan rest (cap (finput f)) (closed (finput f)))
                       (map (fun ch => offer ch e) (foutputs f)) (fdone f) false).
Proof.
  intros Hx Hd Hb Hop r. split.
  - intros Hs. inversion Hs as [f0 Hx0 Hd0| f0 e0 rest0 Hx0 Hb0 | f0 Hx0 Hb0 Hc0]; subst.
    + congruence.
    + rewrite Hb in Hb0. injection Hb0 as <- <-. by rewrite send_all_open.
    + congruence.
  - intros ->. pose proof (fs_recv f e rest Hx Hb) as Hs. rewrite send_all_open in Hs by done.
    exact Hs.
Qed.

Lemma fanout_forwards_witness :
  let f := mkFanout (P:=nat) (mkChan [mkEvent "t" 5 0] 1 false) [mkChan [] 1 false; mkChan [mkEvent "t" 4 0] 1 false]
             false false in
  fexited f = false /\ fdone f = false /\ buf (finput f) = mkEvent "t" 5 0 :: [] /\
  Forall (fun ch => closed ch = false) (foutputs f) /\
  forall r, fanout_step f r <->
    r = Some (mkFanout (mkChan [] (cap (finput f)) (closed (finput f)))
                       (map (fun ch => offer ch (mkEvent "t" 5 0)) (foutputs f)) (fdone f) false).
Proof.
  intros f.
  assert (H1 : fexited f = false) by reflexivity.
  assert (H2 : fdone f = false) by reflexivity.
  assert (H3 : buf (finput f) = mkEvent "t" 5 0 :: []) by reflexivity.
  assert (H4 : Forall (fun ch => closed ch = false) (foutputs f)) by (simpl; repeat constructor).
  split; [exact H1|]. split; [exact H2|]. split; [exact H3|]. split; [exact H4|].
  exact (fanout_forwards f _ _ H1 H2 H3 H4).
Defined.

(** [AddStage] appends a stage that runs after all earlier ones, on
    their output, and only when none of them failed; more generally the
    stages of [s1 ++ s2] run as [s1] followed by [s2], stopping at the
    first error. *)
Theorem stages_compose {P} (p : Pipeline P) (st : Event P -> Event P + string)
    (s1 s2 : list (Event P -> Event P + string)) e :
  run_stages (s1 ++ s2) e =
    match run_stages s1 e with inl e' => run_stages s2 e' | inr err => inr err end /\
  run_stages (stages (AddStage p st)) e =
    match run_stages (stages p) e with inl e' => st e' | inr err => inr err end.
Proof.
  split; [apply run_stages_app|]. simpl. rewrite run_stages_app.
  destruct (run_stages (stages p) e) as [e'|err]; simpl; [by destruct (st e')|done].
Qed.

(** The [Pipeline] goroutine handles one event in two steps. At the top
    of its loop, with its context live and an event in the input, its only
    step takes that event off the input and runs the stages on it. It is
    then blocked in exactly one send: the result to [output], or the first
    error to [errors]. That send is its only possible step, whatever the
    context and the input hold. It completes exactly when the channel is
    open and has room, and puts exactly one item on that channel; it
    panics on a closed channel; otherwise the goroutine stays blocked,
    even after the context is cancelled. *)
Theorem pipeline_processes {P} (p : Pipeline P) :
  pexited p = false ->
  (forall e rest, ppending p = None -> pdone p = false -> buf (pinput p) = e :: rest ->
     forall r, pipeline_step p r <->
       r = Some (mkPipeline (stages p) (mkChan rest (cap (pinput p)) (closed (pinput p)))
                  (poutput p) (perrors p) (Some (run_stages (stages p) e)) (pdone p) false)) /\
  (forall res, ppending p = Some res ->
     forall r, pipeline_step p r <->
       match res with
       | inl e' =>
           (closed (poutput p) = false /\ has_room (poutput p) = true /\
            r = Some (mkPipeline (stages p) (pinput p) (enqueue (poutput p) e')
                       (perrors p) None (pdone p) false)) \/
           (closed (poutput p) = true /\ r = None)
       | inr err =>
           (closed (perrors p) = false /\ has_room (perrors p) = true /\
            r = Some (mkPipeline (stages p) (pinput p) (poutput p)
                       (enqueue (perrors p) err) None (pdone p) false)) \/
           (closed (perrors p) = true /\ r = None)
       end).
Proof.
  intros Hx. split.
  - intros e rest Hp Hd Hb r. split.
    + intros Hs. inversion Hs; subst; try congruence; rewrite Hb in *; simplify_eq; done.
    + intros ->. by apply ps_recv.
  - intros res Hp r. destruct res as [e'|err]; split.
    + intros Hs. inversion Hs; subst; rewrite Hp in *; simplify_eq; [left|right]; done.
    + intros [(Hc & Hroom & ->) | (Hc & ->)]; [by apply ps_send_out | by eapply ps_send_out_closed].
    + intros Hs. inversion Hs; subst; rewrite Hp in *; simplify_eq; [left|right]; done.
    + intros [(Hc & Hroom & ->) | (Hc & ->)]; [by apply ps_send_err | by eapply ps_send_err_closed].
Qed.

Lemma pipeline_processes_witness :
  let p := mkPipeline (P:=nat) [] (mkChan [mkEvent "t" 2 1] 1 false) (mkChan [mkEvent "t" 0 0] 1 false)
             (mkChan [] 1 false) (Some (inl (mkEvent "t" 1 0))) true false in
  has_room (poutput p) = false /\ pexited p = false /\
  (forall e rest, ppending p = None -> pdone p = false -> buf (pinput p) = e :: rest ->
     forall r, pipeline_step p r <->
       r = Some (mkPipeline (stages p) (mkChan rest (cap (pinput p)) (closed (pinput p)))
                  (poutput p) (perrors p) (Some (run_stages (stages p) e)) (pdone p) false)) /\
  (forall res, ppending p = Some res ->
     forall r, pipeline_step p r <->
       match res with
       | inl e' =>
           (closed (poutput p) = false /\ has_room (poutput p) = true /\
            r = Some (mkPipeline (stages p) (pinput p) (enqueue (poutput p) e')
                       (perrors p) None (pdone p) false)) \/
           (closed (poutput p) = true /\ r = None)
       | inr err =>
           (closed (perrors p) = false /\ has_room (perrors p) = true /\
            r = Some (mkPipeline (stages p) (pinput p) (poutput p)
                       (enqueue (perrors p) err) None (pdone p) false)) \/
           (closed (perrors p) = true /\ r = None)
       end).
Proof.
  intros p.
  assert (H1 : pexited p = false) by reflexivity.
  split; [reflexivity|]. split; [exact H1|].
  exact (pipeline_processes p H1).
Defined.

End PubSubMoreProps.
